(** * The PAM bridge of teleport ([lib/pam]), embedded in Rocq

    The package has two builds.  [PamNop] is the fallback that is compiled
    when PAM support is left out ([+build !pam,cgo]); [Pam] is the cgo bridge
    to libpam ([+build pam,cgo]).  Go strings that carry conversation data are
    byte sequences ([list ascii]); messages of errors are [string]s; Go's
    [int] is the 64-bit integer and C's [int] the 32-bit one, both with
    their wrap-around written out. *)

From Stdlib Require Import ZArith List Ascii String Lia.
From stdpp Require Import base gmap strings list.

Local Open Scope Z_scope.

Abbreviation bytes := (list ascii).
Abbreviation loc := positive.

Definition NUL : ascii := "000"%char.
Definition LF : ascii := "010"%char.
Definition CR : ascii := "013"%char.

(** ** Machine integers *)

Definition wrap (bits x : Z) : Z :=
  (x + 2 ^ (bits - 1)) mod 2 ^ bits - 2 ^ (bits - 1).

(** Go's [int] on the 64-bit platforms the cgo build targets. *)
Definition go_int (x : Z) : Z := wrap 64 x.
Definition max_go_int : Z := 2 ^ 63 - 1.

(** The conversion [C.int(x)]. *)
Definition C_int (x : Z) : Z := wrap 32 x.

(** [syscall.Stderr]. *)
Definition syscall_Stderr : Z := 2.

(** ** Errors *)

Inductive error : Type :=
| io_EOF
| io_error (msg : string)
| trace_BadParameter (msg : string)
| trace_Wrap (err : error).

(** ** config.go *)

Record Config : Type := mkConfig {
  Enabled : bool;
  ServiceName : bytes;
  Username : bytes;
  (* io.Reader and io.Writer are interface values: a reference to a stream,
     or the nil interface. *)
  Stdin : option Z;
  Stdout : option Z;
  Stderr : option Z
}.

(** ** The fallback build, [+build !pam,cgo] *)

Module PamNop.

Definition buildHasPAM : bool := false.
Definition systemHasPAM : bool := false.

(* type PAM struct {} *)
Inductive PAM : Type := mkPAM.

Definition Open (config : option Config) : option PAM * option error :=
  (Some mkPAM, None).

Definition Close (p : option PAM) : option error := None.

Definition BuildHasPAM (_ : unit) : bool := buildHasPAM.

Definition SystemHasPAM (_ : unit) : bool := systemHasPAM.

End PamNop.

(** ** Library functions the bridge calls *)

(** [strnlen(s, maxlen)]: [s] is the memory at the pointer; the string ends
    at the first NUL (the end of the list stands for the terminator). *)
Fixpoint strnlen (s : bytes) (maxlen : nat) : nat :=
  match maxlen, s with
  | S m, c :: s' => if decide (c = NUL) then O else S (strnlen s' m)
  | _, _ => O
  end.

Definition strlen (s : bytes) : nat := strnlen s (List.length s).

(** [C.GoStringN(p, n)] copies [n] bytes from [p]. *)
Definition GoStringN (s : bytes) (n : Z) : bytes := firstn (Z.to_nat n) s.

(** The bytes [C.CString(s)] puts in the buffer it allocates. *)
Definition CString_bytes (s : bytes) : bytes := s ++ [NUL].

Fixpoint has_prefix (old s : bytes) : bool :=
  match old, s with
  | [], _ => true
  | o :: old', c :: s' => if decide (o = c) then has_prefix old' s' else false
  | _ :: _, [] => false
  end.

(** [bytes.Replace(s, old, new, -1)] for a non-empty [old]: every
    non-overlapping occurrence of [old], from the left, becomes [new].
    [skip] counts the bytes of an occurrence still to be passed over. *)
Fixpoint replace_from (old new : bytes) (skip : nat) (s : bytes) : bytes :=
  match s with
  | [] => []
  | c :: s' =>
    match skip with
    | S k => replace_from old new k s'
    | O =>
      if has_prefix old s
      then new ++ replace_from old new (Nat.pred (List.length old)) s'
      else c :: replace_from old new O s'
    end
  end.

Definition bytes_Replace_all (s old new : bytes) : bytes :=
  replace_from old new O s.

(** ** Streams

    A reader is known by the results of the [Read] calls still to come: a
    chunk of data or an error; past the last one [Read] reports [io.EOF].
    A writer keeps every buffer handed to [Write]; a writer that is broken
    takes nothing and reports its error. *)

Inductive ReadResult : Type :=
| Data (chunk : bytes)
| ReadErr (err : error).

Record Writer : Type := mkWriter {
  received : list bytes;
  broken : option error
}.

(** Splits a chunk after the first [delim]. *)
Fixpoint cut_after (delim : ascii) (chunk : bytes) : option (bytes * bytes) :=
  match chunk with
  | [] => None
  | c :: rest =>
    if decide (c = delim) then Some ([c], rest)
    else match cut_after delim rest with
         | Some (line, tail) => Some (c :: line, tail)
         | None => None
         end
  end.

(** [bufio.NewReader(rd).ReadString(delim)]: reads until the first [delim];
    an error before it is returned with the data read so far.  The buffered
    reader is dropped afterwards, and with it what it read past the
    delimiter. *)
Fixpoint ReadString (delim : ascii) (acc : bytes) (rd : list ReadResult)
  : (bytes * option error) * list ReadResult :=
  match rd with
  | [] => ((acc, Some io_EOF), [])
  | ReadErr e :: rd' => ((acc, Some e), rd')
  | Data chunk :: rd' =>
    match cut_after delim chunk with
    | Some (line, _) => ((acc ++ line, None), rd')
    | None => ReadString delim (acc ++ chunk) rd'
    end
  end.

(** ** The cgo build, [+build pam,cgo] *)

Module Pam.

Definition buildHasPAM : bool := true.

(** [type PAM struct]; C pointers are addresses, 0 for nil. *)
Record PAM : Type := mkPAM {
  pamh : Z;
  conv : Z;
  retval : Z;
  stdin : option Z;
  stdout : option Z;
  stderr : option Z;
  service_name : Z;
  user : Z;
  handlerIndex : Z
}.

Definition set_pamh (v : Z) (p : PAM) : PAM :=
  mkPAM v (conv p) (retval p) (stdin p) (stdout p) (stderr p)
        (service_name p) (user p) (handlerIndex p).
Definition set_conv (v : Z) (p : PAM) : PAM :=
  mkPAM (pamh p) v (retval p) (stdin p) (stdout p) (stderr p)
        (service_name p) (user p) (handlerIndex p).
Definition set_retval (v : Z) (p : PAM) : PAM :=
  mkPAM (pamh p) (conv p) v (stdin p) (stdout p) (stderr p)
        (service_name p) (user p) (handlerIndex p).
Definition set_service_name (v : Z) (p : PAM) : PAM :=
  mkPAM (pamh p) (conv p) (retval p) (stdin p) (stdout p) (stderr p)
        v (user p) (handlerIndex p).
Definition set_user (v : Z) (p : PAM) : PAM :=
  mkPAM (pamh p) (conv p) (retval p) (stdin p) (stdout p) (stderr p)
        (service_name p) v (handlerIndex p).
Definition set_handlerIndex (v : Z) (p : PAM) : PAM :=
  mkPAM (pamh p) (conv p) (retval p) (stdin p) (stdout p) (stderr p)
        (service_name p) (user p) v.

(** What [malloc] handed out: the buffer of a [C.CString] (terminator
    included) or the [struct pam_conv] of a session. *)
Inductive Block : Type :=
| CStr (content : bytes)
| PamConv (index : Z).

(** The lines [log.Errorf] writes. *)
Inductive LogEntry : Type :=
| NoWriteHandler (index : Z)
| NoReadHandler (index : Z)
| ReadFailed (err : error).

(** The native calls the Go code makes, in the order it makes them.  A
    call into libpam carries what it returned, or [None] when the process
    died inside it. *)
Inductive Event : Type :=
| EvMakePamConv (index addr : Z)
| EvStart (service user cnv : Z) (ret : option (Z * Z))
| EvAcctMgmt (h flags : Z) (ret : option Z)
| EvOpenSession (h flags : Z) (ret : option Z)
| EvCloseSession (h flags : Z) (ret : option Z)
| EvEnd (h status : Z) (ret : option Z)
| EvStrerror (h code : Z) (text : option string)
| EvFree (addr : Z).

(** The state of the process: the package-level variables [handlerCount]
    and [handlers], the [*PAM] objects of the Go heap, the log, the C heap,
    the native calls made so far and the streams sessions refer to. *)
Record World : Type := mkWorld {
  handlerCount : Z;
  handlers : gmap Z loc;
  objs : gmap loc PAM;
  next_obj : loc;
  errlog : list LogEntry;
  cheap : gmap Z Block;
  next_addr : Z;
  calls : list Event;
  readers : gmap Z (list ReadResult);
  writers : gmap Z Writer
}.

Definition set_handlerCount (v : Z) (w : World) : World :=
  mkWorld v (handlers w) (objs w) (next_obj w) (errlog w) (cheap w)
          (next_addr w) (calls w) (readers w) (writers w).
Definition set_handlers (v : gmap Z loc) (w : World) : World :=
  mkWorld (handlerCount w) v (objs w) (next_obj w) (errlog w) (cheap w)
          (next_addr w) (calls w) (readers w) (writers w).
Definition set_objs (v : gmap loc PAM) (w : World) : World :=
  mkWorld (handlerCount w) (handlers w) v (next_obj w) (errlog w) (cheap w)
          (next_addr w) (calls w) (readers w) (writers w).
Definition set_next_obj (v : loc) (w : World) : World :=
  mkWorld (handlerCount w) (handlers w) (objs w) v (errlog w) (cheap w)
          (next_addr w) (calls w) (readers w) (writers w).
Definition set_errlog (v : list LogEntry) (w : World) : World :=
  mkWorld (handlerCount w) (handlers w) (objs w) (next_obj w) v (cheap w)
          (next_addr w) (calls w) (readers w) (writers w).
Definition set_cheap (v : gmap Z Block) (w : World) : World :=
  mkWorld (handlerCount w) (handlers w) (objs w) (next_obj w) (errlog w) v
          (next_addr w) (calls w) (readers w) (writers w).
Definition set_next_addr (v : Z) (w : World) : World :=
  mkWorld (handlerCount w) (handlers w) (objs w) (next_obj w) (errlog w)
          (cheap w) v (calls w) (readers w) (writers w).
Definition set_calls (v : list Event) (w : World) : World :=
  mkWorld (handlerCount w) (handlers w) (objs w) (next_obj w) (errlog w)
          (cheap w) (next_addr w) v (readers w) (writers w).
Definition set_readers (v : gmap Z (list ReadResult)) (w : World) : World :=
  mkWorld (handlerCount w) (handlers w) (objs w) (next_obj w) (errlog w)
          (cheap w) (next_addr w) (calls w) v (writers w).
Definition set_writers (v : gmap Z Writer) (w : World) : World :=
  mkWorld (handlerCount w) (handlers w) (objs w) (next_obj w) (errlog w)
          (cheap w) (next_addr w) (calls w) (readers w) v.

(** The package when the process starts: [handlerCount] is 0 and
    [handlers] is the empty map; the streams are the caller's. *)
Definition init_world (rs : gmap Z (list ReadResult)) (ws : gmap Z Writer)
  : World :=
  mkWorld 0 ∅ ∅ 1%positive [] ∅ 1 [] rs ws.

(** *** Computations of the bridge

    A computation runs from a state of the process and returns with a
    value, or panics; nothing in the package recovers a panic, so the
    process dies in the state it had reached. *)
Inductive Outcome (A : Type) : Type :=
| Ok (a : A) (w : World)
| Crash (w : World).
Arguments Ok {A} a w.
Arguments Crash {A} w.

Definition M (A : Type) : Type := World -> Outcome A.

Definition ret {A} (a : A) : M A := fun w => Ok a w.
Definition bind {A B} (m : M A) (k : A -> M B) : M B :=
  fun w => match m w with
           | Ok a w' => k a w'
           | Crash w' => Crash w'
           end.
Definition panic {A} : M A := fun w => Crash w.
Definition get : M World := fun w => Ok w w.
Definition modify (f : World -> World) : M unit := fun w => Ok tt (f w).

Definition final {A} (o : Outcome A) : World :=
  match o with Ok _ w => w | Crash w => w end.

Declare Scope pam_scope.
Delimit Scope pam_scope with pam.
Notation "'let*' x := m 'in' k" := (bind m (fun x => k))
  (at level 10, x name, m at level 100, k at level 200) : pam_scope.
Notation "'do' m 'then' k" := (bind m (fun _ => k))
  (at level 10, m at level 100, k at level 200) : pam_scope.
Local Open Scope pam_scope.

(** Reading a field through a [*PAM]; a pointer to no object is nil. *)
Definition load (p : loc) : M PAM :=
  let* w := get in
  match objs w !! p with
  | Some P => ret P
  | None => panic
  end.

(** Assigning a field through a [*PAM]. *)
Definition assign (p : loc) (f : PAM -> PAM) : M unit :=
  let* P := load p in
  modify (fun w => set_objs (<[p := f P]> (objs w)) w).

(** [&PAM{...}] *)
Definition new_PAM (P : PAM) : M loc :=
  let* w := get in
  let p := next_obj w in
  do modify (fun w => set_next_obj (Pos.succ p) (set_objs (<[p := P]> (objs w)) w))
  then
  ret p.

Definition logErrorf (e : LogEntry) : M unit :=
  modify (fun w => set_errlog (errlog w ++ [e]) w).

Definition record (e : Event) : M unit :=
  modify (fun w => set_calls (calls w ++ [e]) w).

Definition malloc (b : Block) : M Z :=
  let* w := get in
  let a := next_addr w in
  do modify (fun w => set_next_addr (a + 1) (set_cheap (<[a := b]> (cheap w)) w))
  then
  ret a.

(** [C.CString(s)] *)
Definition C_CString (s : bytes) : M Z := malloc (CStr (CString_bytes s)).

(** [C.free(unsafe.Pointer(a))] *)
Definition C_free (a : Z) : M unit :=
  do modify (fun w => set_cheap (delete a (cheap w)) w) then
  record (EvFree a).

(** Modelled from the spec: [make_pam_conv] is a C function of the package
    that is not among the sources; it "allocates struct pam_conv on the
    heap" (the comment at its call), with the handle id embedded in it. *)
Definition make_pam_conv (index : Z) : M Z :=
  let* a := malloc (PamConv index) in
  do record (EvMakePamConv index a) then
  ret a.

(** [writer.Write(b)] on an [io.Writer]. *)
Definition io_Write (writer : option Z) (b : bytes) : M (Z * option error) :=
  match writer with
  | None => panic
  | Some id =>
    let* w := get in
    match writers w !! id with
    | None => panic
    | Some W =>
      do modify (set_writers
                   (<[id := mkWriter (received W ++ [b]) (broken W)]> (writers w)))
      then
      match broken W with
      | None => ret (Z.of_nat (List.length b), None)
      | Some e => ret (0, Some e)
      end
    end
  end.

(** [bufio.NewReader(reader).ReadString(delim)] on an [io.Reader]. *)
Definition bufio_ReadString (reader : option Z) (delim : ascii)
  : M (bytes * option error) :=
  match reader with
  | None => panic
  | Some id =>
    let* w := get in
    match readers w !! id with
    | None => panic
    | Some rd =>
      let '(res, rd') := ReadString delim [] rd in
      do modify (set_readers (<[id := rd']> (readers w))) then
      ret res
    end
  end.

(** [s[:hi]] *)
Definition slice_to (s : bytes) (hi : Z) : M bytes :=
  if decide (0 <= hi <= Z.of_nat (List.length s))
  then ret (firstn (Z.to_nat hi) s)
  else panic.

(** *** libpam

    What a native entry point does while it runs: it may call back into
    the conversation function of the process any number of times, with a
    message to show ([writeCallback]) or a prompt to answer
    ([readCallback], whose answer it then sees), and at last it returns. *)
Inductive Native (R : Type) : Type :=
| Return (r : R)
| Message (index stream : Z) (s : bytes) (k : Native R)
| Prompt (index e : Z) (k : option Block -> Native R).
Arguments Return {R} r.
Arguments Message {R} index stream s k.
Arguments Prompt {R} index e k.

(** The native side of the bridge: the constants of
    [<security/pam_appl.h>], the handle [dlopen] returns in [init], and the
    entry points of the C wrappers, each with the handle of the library
    first.  An entry point may behave as it likes, also depending on the
    state of the process when it is called. *)
Record Libpam : Type := mkLibpam {
  PAM_SUCCESS : Z;
  PAM_MAX_MSG_SIZE : Z;
  PAM_MAX_RESP_SIZE : Z;
  dlopen_library : Z;
  _pam_start : World -> Z -> Z -> Z -> Z -> Z -> Native (Z * Z);
  _pam_acct_mgmt : World -> Z -> Z -> Z -> Native Z;
  _pam_open_session : World -> Z -> Z -> Z -> Native Z;
  _pam_close_session : World -> Z -> Z -> Z -> Native Z;
  _pam_end : World -> Z -> Z -> Z -> Native Z;
  (* NULL, or the text of a status *)
  _pam_strerror : World -> Z -> Z -> Z -> option string
}.

Section Bridge.

Variable L : Libpam.

(** [init]: the handle of the library, and whether there is one. *)
Definition pamHandle : Z := dlopen_library L.
Definition systemHasPAM : bool := negb (pamHandle =? 0).

(** **** The handler interface, implemented by [*PAM] *)

Definition writeStream (p : loc) (stream : Z) (s : bytes)
  : M (Z * option error) :=
  let* P := load p in
  let writer :=
    if decide (stream = syscall_Stderr) then stderr P else stdout P in
  let* r := io_Write writer (bytes_Replace_all s [LF] [CR; LF]) in
  match snd r with
  | Some err => ret (fst r, Some err)
  | None => ret (fst r, None)
  end.

Definition readStream (p : loc) (echo : bool) : M (bytes * option error) :=
  let* P := load p in
  let* r := bufio_ReadString (stdin P) LF in
  match snd r with
  | Some err => ret ([], Some (trace_Wrap err))
  | None => ret (fst r, None)
  end.

(** **** The callbacks exported to C

    Both run with [handlerMu] held from entry to return, as do
    [registerHandler] and [unregisterHandler]: each is one step. *)

Definition writeCallback (index stream : Z) (s : bytes) : M unit :=
  let* w := get in
  match handlers w !! index with
  | None => logErrorf (NoWriteHandler index)
  | Some handle =>
    let n := C_int (Z.of_nat (strnlen s (Z.to_nat (PAM_MAX_MSG_SIZE L)))) in
    if decide (n < 0) then panic
    else
      let str := GoStringN s n in
      do writeStream handle stream str then
      ret tt
  end.

(** Returns the [*C.char], 0 for nil. *)
Definition readCallback (index e : Z) : M Z :=
  let* w := get in
  match handlers w !! index with
  | None =>
    do logErrorf (NoReadHandler index) then
    ret 0
  | Some handle =>
    let echo := if decide (e = 1) then true else false in
    let* r := readStream handle echo in
    match snd r with
    | Some err =>
      do logErrorf (ReadFailed err) then
      ret 0
    | None =>
      let s := fst r in
      let n := go_int (PAM_MAX_RESP_SIZE L) in
      if decide (Z.of_nat (List.length s) > n - 1)
      then
        let* s' := slice_to s (n - 1) in
        C_CString s'
      else C_CString s
    end
  end.

(** **** The handle registry *)

Definition registerHandler (p : loc) : M Z :=
  let* w := get in
  let count := go_int (handlerCount w + 1) in
  do modify (set_handlerCount count) then
  let* c := make_pam_conv (C_int count) in
  do assign p (set_conv c) then
  do modify (fun w => set_handlers (<[count := p]> (handlers w)) w) then
  ret count.

Definition unregisterHandler (handlerIndex : Z) : M unit :=
  modify (fun w => set_handlers (delete handlerIndex (handlers w)) w).

(** **** Calls into libpam *)

(** Runs a native entry point: its callbacks act on the process. *)
Fixpoint run_native {R} (n : Native R) : M R :=
  match n with
  | Return r => ret r
  | Message index stream s k =>
    do writeCallback index stream s then
    run_native k
  | Prompt index e k =>
    let* a := readCallback index e in
    let* w := get in
    run_native (k (if decide (a = 0) then None else cheap w !! a))
  end.

Definition call_native {R} (ev : option R -> Event) (n : Native R) : M R :=
  fun w =>
    match run_native n w with
    | Ok r w' => Ok r (set_calls (calls w' ++ [ev (Some r)]) w')
    | Crash w' => Crash (set_calls (calls w' ++ [ev None]) w')
    end.

Definition codeToError (p : loc) (returnValue : Z) : M (option error) :=
  let* P := load p in
  let* w := get in
  let err := _pam_strerror L w pamHandle (pamh P) returnValue in
  do record (EvStrerror (pamh P) returnValue err) then
  match err with
  | Some msg => ret (Some (trace_BadParameter msg))
  | None => ret None
  end.

(** **** Open and Close *)

Definition Open (config : option Config) : M (option loc * option error) :=
  match config with
  | None =>
    ret (None, Some (trace_BadParameter "PAM configuration is required."))
  | Some config =>
    let* p := new_PAM (mkPAM 0 0 0 (Stdin config) (Stdout config)
                             (Stderr config) 0 0 0) in
    let* sn := C_CString (ServiceName config) in
    do assign p (set_service_name sn) then
    let* u := C_CString (Username config) in
    do assign p (set_user u) then
    let* index := registerHandler p in
    do assign p (set_handlerIndex index) then
    let* P := load p in
    let* w := get in
    let* r := call_native (EvStart (service_name P) (user P) (conv P))
                (_pam_start L w pamHandle (service_name P) (user P)
                            (conv P) (pamh P)) in
    do assign p (fun P => set_retval (fst r) (set_pamh (snd r) P)) then
    let* P := load p in
    if decide (retval P <> PAM_SUCCESS L)
    then
      let* err := codeToError p (retval P) in
      ret (None, err)
    else
      let* w := get in
      let* retval1 := call_native (EvAcctMgmt (pamh P) 0)
                        (_pam_acct_mgmt L w pamHandle (pamh P) 0) in
      if decide (retval1 <> PAM_SUCCESS L)
      then
        let* err := codeToError p retval1 in
        ret (None, err)
      else
        let* P := load p in
        let* w := get in
        let* r := call_native (EvOpenSession (pamh P) 0)
                    (_pam_open_session L w pamHandle (pamh P) 0) in
        do assign p (set_retval r) then
        let* P := load p in
        if decide (retval P <> PAM_SUCCESS L)
        then
          let* err := codeToError p (retval P) in
          ret (None, err)
        else ret (Some p, None)
  end.

Definition Close (p : loc) : M (option error) :=
  let* P := load p in
  let* w := get in
  let* r := call_native (EvCloseSession (pamh P) 0)
              (_pam_close_session L w pamHandle (pamh P) 0) in
  do assign p (set_retval r) then
  let* P := load p in
  if decide (retval P <> PAM_SUCCESS L)
  then codeToError p (retval P)
  else
    let* w := get in
    let* retval1 := call_native (EvEnd (pamh P) (retval P))
                      (_pam_end L w pamHandle (pamh P) (retval P)) in
    if decide (retval1 <> PAM_SUCCESS L)
    then codeToError p retval1
    else
      let* P := load p in
      do C_free (conv P) then
      do C_free (service_name P) then
      do C_free (user P) then
      do unregisterHandler (handlerIndex P) then
      ret None.

Definition BuildHasPAM (_ : unit) : bool := buildHasPAM.

Definition SystemHasPAM (_ : unit) : bool := systemHasPAM.

End Bridge.

End Pam.

(** ** Package teleport: the names of the components *)

Module Teleport.

(** [strings.Join(elems, sep)] *)
Fixpoint strings_Join (elems : list string) (sep : string) : string :=
  match elems with
  | [] => EmptyString
  | [x] => x
  | x :: rest => String.append x (String.append sep (strings_Join rest sep))
  end.

Definition ComponentProxy : string := "proxy".
Definition ComponentPAM : string := "pam".

Definition Component (components : list string) : string :=
  strings_Join components ":".

End Teleport.

(** ** Notions the statements use *)



(** The text [writeStream] hands to the writer, said byte by byte. *)
Definition crlf (c : ascii) : bytes :=
  if decide (c = LF) then [CR; LF] else [c].

(** The number of newline characters of a text. *)
Definition newlines (s : bytes) : nat := count_occ ascii_dec s LF.

(** A history of the handle registry: [n] calls of [registerHandler], any
    number of calls of [unregisterHandler], and in between whatever else the
    process does; nothing else in the package assigns [handlerCount] or
    [handlers]. *)
Inductive registry_run : nat -> Pam.World -> Pam.World -> Prop :=
| run_start w : registry_run O w w
| run_register n w0 w w' p id :
    registry_run n w0 w ->
    Pam.registerHandler p w = Pam.Ok id w' ->
    registry_run (S n) w0 w'
| run_unregister n w0 w w' id :
    registry_run n w0 w ->
    Pam.unregisterHandler id w = Pam.Ok tt w' ->
    registry_run n w0 w'
| run_other n w0 w w' :
    registry_run n w0 w ->
    Pam.handlerCount w' = Pam.handlerCount w ->
    Pam.handlers w' = Pam.handlers w ->
    registry_run n w0 w'.

(** What a conversation callback leaves alone: the registry, the sessions
    and the record of the native calls. *)
Definition go_frame (w w' : Pam.World) : Prop :=
  Pam.handlerCount w' = Pam.handlerCount w /\
  Pam.handlers w' = Pam.handlers w /\
  Pam.objs w' = Pam.objs w /\
  Pam.next_obj w' = Pam.next_obj w /\
  Pam.calls w' = Pam.calls w.

Definition framed {A : Type} (m : Pam.M A) : Prop :=
  forall w, go_frame w (Pam.final (m w)).

(** What a conversation callback leaves alone on the C heap: every address
    handed out before still holds what it held, and [malloc] has not gone
    back. *)
Definition heap_kept (w w' : Pam.World) : Prop :=
  Pam.next_addr w <= Pam.next_addr w' /\
  forall a, a < Pam.next_addr w -> Pam.cheap w' !! a = Pam.cheap w !! a.

Definition keeps_heap {A : Type} (m : Pam.M A) : Prop :=
  forall w, heap_kept w (Pam.final (m w)).

(** What a computation returned, if it did. *)
Definition returned {A : Type} (o : Pam.Outcome A) : option A :=
  match o with
  | Pam.Ok a _ => Some a
  | Pam.Crash _ => None
  end.

(** The error [codeToError] makes of what [_pam_strerror] returned. *)
Definition error_of_text (text : option string) : option error :=
  match text with
  | Some msg => Some (trace_BadParameter msg)
  | None => None
  end.

(** The native calls one [Open] with a configuration adds to the record, and
    what it returns, if the process lives: the conversation descriptor, then
    start, account management and open session as far as each reported
    success, the text of the first failure being looked up at once. *)
Inductive open_run (L : Pam.Libpam)
  : list Pam.Event -> option (option loc * option error) -> Prop :=
| died_in_start ix a s u :
    open_run L [Pam.EvMakePamConv ix a; Pam.EvStart s u a None] None
| start_failed ix a s u r h text :
    r <> Pam.PAM_SUCCESS L ->
    open_run L [Pam.EvMakePamConv ix a; Pam.EvStart s u a (Some (r, h));
                Pam.EvStrerror h r text]
             (Some (None, error_of_text text))
| died_in_acct_mgmt ix a s u h :
    open_run L [Pam.EvMakePamConv ix a;
                Pam.EvStart s u a (Some (Pam.PAM_SUCCESS L, h));
                Pam.EvAcctMgmt h 0 None]
             None
| acct_mgmt_failed ix a s u h r text :
    r <> Pam.PAM_SUCCESS L ->
    open_run L [Pam.EvMakePamConv ix a;
                Pam.EvStart s u a (Some (Pam.PAM_SUCCESS L, h));
                Pam.EvAcctMgmt h 0 (Some r); Pam.EvStrerror h r text]
             (Some (None, error_of_text text))
| died_in_open_session ix a s u h :
    open_run L [Pam.EvMakePamConv ix a;
                Pam.EvStart s u a (Some (Pam.PAM_SUCCESS L, h));
                Pam.EvAcctMgmt h 0 (Some (Pam.PAM_SUCCESS L));
                Pam.EvOpenSession h 0 None]
             None
| open_session_failed ix a s u h r text :
    r <> Pam.PAM_SUCCESS L ->
    open_run L [Pam.EvMakePamConv ix a;
                Pam.EvStart s u a (Some (Pam.PAM_SUCCESS L, h));
                Pam.EvAcctMgmt h 0 (Some (Pam.PAM_SUCCESS L));
                Pam.EvOpenSession h 0 (Some r); Pam.EvStrerror h r text]
             (Some (None, error_of_text text))
| session_opened ix a s u h p :
    open_run L [Pam.EvMakePamConv ix a;
                Pam.EvStart s u a (Some (Pam.PAM_SUCCESS L, h));
                Pam.EvAcctMgmt h 0 (Some (Pam.PAM_SUCCESS L));
                Pam.EvOpenSession h 0 (Some (Pam.PAM_SUCCESS L))]
             (Some (Some p, None)).

(** The same for [Close] on the session [P]. *)
Inductive close_run (L : Pam.Libpam) (P : Pam.PAM)
  : list Pam.Event -> option (option error) -> Prop :=
| died_in_close_session :
    close_run L P [Pam.EvCloseSession (Pam.pamh P) 0 None] None
| close_session_failed r text :
    r <> Pam.PAM_SUCCESS L ->
    close_run L P [Pam.EvCloseSession (Pam.pamh P) 0 (Some r);
                   Pam.EvStrerror (Pam.pamh P) r text]
              (Some (error_of_text text))
| died_in_end :
    close_run L P [Pam.EvCloseSession (Pam.pamh P) 0 (Some (Pam.PAM_SUCCESS L));
                   Pam.EvEnd (Pam.pamh P) (Pam.PAM_SUCCESS L) None]
              None
| end_failed r text :
    r <> Pam.PAM_SUCCESS L ->
    close_run L P [Pam.EvCloseSession (Pam.pamh P) 0 (Some (Pam.PAM_SUCCESS L));
                   Pam.EvEnd (Pam.pamh P) (Pam.PAM_SUCCESS L) (Some r);
                   Pam.EvStrerror (Pam.pamh P) r text]
              (Some (error_of_text text))
| session_closed :
    close_run L P [Pam.EvCloseSession (Pam.pamh P) 0 (Some (Pam.PAM_SUCCESS L));
                   Pam.EvEnd (Pam.pamh P) (Pam.PAM_SUCCESS L)
                             (Some (Pam.PAM_SUCCESS L));
                   Pam.EvFree (Pam.conv P); Pam.EvFree (Pam.service_name P);
                   Pam.EvFree (Pam.user P)]
              (Some None).

(** The state [Open] on a configuration leaves, however it ends: the new
    session is registered under the next id, the two strings and the
    conversation descriptor are on the C heap, and nothing that was there
    before has changed. *)
Definition open_post (L : Pam.Libpam) (cfg : Config) (w : Pam.World)
           (o : Pam.Outcome (option loc * option error)) : Prop :=
  let id := go_int (Pam.handlerCount w + 1) in
  let p := Pam.next_obj w in
  Pam.handlerCount (Pam.final o) = id /\
  Pam.handlers (Pam.final o) = <[id := p]> (Pam.handlers w) /\
  Pam.cheap (Pam.final o) !! Pam.next_addr w =
  Some (Pam.CStr (CString_bytes (ServiceName cfg))) /\
  Pam.cheap (Pam.final o) !! (Pam.next_addr w + 1) =
  Some (Pam.CStr (CString_bytes (Username cfg))) /\
  Pam.cheap (Pam.final o) !! (Pam.next_addr w + 2) =
  Some (Pam.PamConv (C_int id)) /\
  (forall a, a < Pam.next_addr w ->
             Pam.cheap (Pam.final o) !! a = Pam.cheap w !! a) /\
  exists P,
    Pam.objs (Pam.final o) !! p = Some P /\
    Pam.stdin P = Stdin cfg /\ Pam.stdout P = Stdout cfg /\
    Pam.stderr P = Stderr cfg /\
    Pam.service_name P = Pam.next_addr w /\
    Pam.user P = Pam.next_addr w + 1 /\
    Pam.conv P = Pam.next_addr w + 2 /\
    Pam.handlerIndex P = id /\
    forall q e, returned o = Some (Some q, e) ->
                q = p /\ e = None /\ Pam.retval P = Pam.PAM_SUCCESS L.

(** The state [Close] leaves, however it ends: the session object keeps
    its pointers; if the teardown was reached the handler is unregistered
    and the three blocks are gone, and if not, the registry is as before
    and nothing was released. *)
Definition close_post (L : Pam.Libpam) (p : loc) (P : Pam.PAM) (w : Pam.World)
           (o : Pam.Outcome (option error)) : Prop :=
  exists evs,
    Pam.calls (Pam.final o) = Pam.calls w ++ evs /\
    close_run L P evs (returned o) /\
    (exists P',
        Pam.objs (Pam.final o) !! p = Some P' /\
        Pam.pamh P' = Pam.pamh P /\ Pam.conv P' = Pam.conv P /\
        Pam.service_name P' = Pam.service_name P /\
        Pam.user P' = Pam.user P /\
        Pam.handlerIndex P' = Pam.handlerIndex P) /\
    ((exists a, In (Pam.EvFree a) evs) ->
     Pam.handlers (Pam.final o) =
     delete (Pam.handlerIndex P) (Pam.handlers w) /\
     Pam.cheap (Pam.final o) !! Pam.conv P = None /\
     Pam.cheap (Pam.final o) !! Pam.service_name P = None /\
     Pam.cheap (Pam.final o) !! Pam.user P = None) /\
    (~ (exists a, In (Pam.EvFree a) evs) ->
     Pam.handlers (Pam.final o) = Pam.handlers w /\
     heap_kept w (Pam.final o)).

(** The registry keeps its ids between 1 and the number of registrations. *)
Definition registry_inv (n : nat) (w : Pam.World) : Prop :=
  Pam.handlerCount w = Z.of_nat n /\
  forall (id : Z) (p : loc),
    Pam.handlers w !! id = Some p -> 0 < id <= Z.of_nat n.

(** *** A libpam and a process to run the bridge on

    The constants are those of Linux-PAM; [pam_start] shows a message,
    [pam_acct_mgmt] asks a question, and the statuses of the calls are
    chosen by the arguments. *)
Definition sample_libpam (start acct session close : Z) (text : option string)
  : Pam.Libpam :=
  Pam.mkLibpam 0 512 512 4096
    (fun _ _ _ _ _ _ =>
       Pam.Message 1 1 (list_ascii_of_string "Last login") (Pam.Return (start, 77)))
    (fun _ _ _ _ => Pam.Prompt 1 1 (fun _ => Pam.Return acct))
    (fun _ _ _ _ => Pam.Return session)
    (fun _ _ _ _ => Pam.Return close)
    (fun _ _ _ _ => Pam.Return 0)
    (fun _ _ _ _ => text).

Definition sample_config : Config :=
  mkConfig true (list_ascii_of_string "sshd") (list_ascii_of_string "bob")
           (Some 0) (Some 1) (Some 2).

Definition sample_world : Pam.World :=
  Pam.init_world
    {[ 0 := [Data (list_ascii_of_string "yes" ++ [LF])] ]}
    {[ 1 := mkWriter [] None; 2 := mkWriter [] None ]}.

(** A process with one session object that is not registered yet. *)
Definition sample_unregistered : Pam.World :=
  Pam.set_objs {[ 1%positive := Pam.mkPAM 0 0 0 (Some 0) (Some 1) (Some 2) 0 0 0 ]}
               sample_world.

(** A libpam on which every call succeeds, and one on which closing the
    session fails with [PAM_SESSION_ERR]. *)
Definition sample_good : Pam.Libpam := sample_libpam 0 0 0 0 None.

Definition sample_failing_close : Pam.Libpam :=
  sample_libpam 0 0 0 14
    (Some "Cannot make/remove an entry for the specified session"%string).

(** Two on which [_pam_strerror] has no text (it returns NULL): start fails
    with [PAM_ABORT] on the first, closing the session fails on the second. *)
Definition sample_mute_start : Pam.Libpam := sample_libpam 26 0 0 0 None.

Definition sample_mute_close : Pam.Libpam := sample_libpam 0 0 0 14 None.

(** The process after [Open] succeeded on [sample_config], and the session
    it returned. *)
Definition sample_session (L : Pam.Libpam) : Pam.World :=
  Pam.final (Pam.Open L (Some sample_config) sample_world).

Definition sample_PAM : Pam.PAM :=
  Pam.mkPAM 77 3 0 (Some 0) (Some 1) (Some 2) 1 2 1.

(** The same process with a line of [PAM_MAX_RESP_SIZE + 10] bytes waiting
    on the input of the session. *)
Definition sample_long_line : bytes := repeat "y"%char 521 ++ [LF].

Definition sample_waiting : Pam.World :=
  Pam.set_readers {[ 0 := [Data sample_long_line] ]} (sample_session sample_good).

(** The same process with two lines waiting that the reader delivers in
    one piece. *)
Definition sample_two_lines : Pam.World :=
  Pam.set_readers
    {[ 0 := [Data (list_ascii_of_string "yes" ++ [LF] ++
                   list_ascii_of_string "no" ++ [LF])] ]}
    (sample_session sample_good).

(** A process whose only session was configured without streams. *)
Definition sample_streamless : Pam.World :=
  Pam.set_handlers {[ 1 := 1%positive ]}
    (Pam.set_objs {[ 1%positive := Pam.mkPAM 0 0 0 None None None 0 0 1 ]}
                  sample_world).

(** A message of [PAM_MAX_MSG_SIZE + 50] bytes. *)
Definition sample_long_message : bytes := repeat "x"%char 562.

(** ** The fallback build *)

(** C10: in the build without PAM, [Open] returns a session and no error
    whatever the configuration, the nil one included; [Close] returns nil;
    both capability queries answer false. *)
Theorem nop_build_succeeds_trivially :
  (forall config : option Config,
      exists p, PamNop.Open config = (Some p, None)) /\
  (exists p, PamNop.Open None = (Some p, None)) /\
  (forall p, PamNop.Close p = None) /\
  PamNop.BuildHasPAM tt = false /\
  PamNop.SystemHasPAM tt = false.
Proof.
  repeat split; try reflexivity.
  - intros config. exists PamNop.mkPAM. reflexivity.
  - exists PamNop.mkPAM. reflexivity.
Qed.

(** ** Library functions *)

Lemma replace_LF_flat_map (s : bytes) :
  bytes_Replace_all s [LF] [CR; LF] = flat_map crlf s.
Proof.
  unfold bytes_Replace_all.
  induction s as [|c s IH]; [reflexivity|].
  cbn [replace_from has_prefix flat_map List.length Nat.pred].
  unfold crlf at 1.
  destruct (decide (LF = c)) as [<-|Hne].
  - rewrite decide_True by reflexivity. rewrite IH. reflexivity.
  - rewrite decide_False by congruence. rewrite IH. reflexivity.
Qed.

Lemma flat_map_crlf_length (s : bytes) :
  List.length (flat_map crlf s) = (List.length s + newlines s)%nat.
Proof.
  unfold newlines.
  induction s as [|c s IH]; [reflexivity|].
  cbn [flat_map count_occ]. rewrite length_app, IH. unfold crlf.
  destruct (decide (c = LF)) as [->|Hne].
  - destruct (ascii_dec LF LF) as [_|Hf]; [|congruence]. cbn. lia.
  - destruct (ascii_dec c LF) as [He|_]; [congruence|]. cbn. lia.
Qed.

Lemma flat_map_crlf_newlines (s : bytes) :
  newlines (flat_map crlf s) = newlines s.
Proof.
  unfold newlines.
  induction s as [|c s IH]; [reflexivity|].
  cbn [flat_map]. rewrite count_occ_app, IH. unfold crlf.
  destruct (decide (c = LF)) as [->|Hne].
  - reflexivity.
  - cbn [count_occ]. destruct (ascii_dec c LF) as [He|_]; [congruence|]. reflexivity.
Qed.

Lemma strnlen_le_max (s : bytes) (n : nat) : (strnlen s n <= n)%nat.
Proof.
  revert s. induction n as [|n IH]; intros [|c s]; cbn; try lia.
  destruct (decide (c = NUL)); [lia|]. specialize (IH s). lia.
Qed.

Lemma strnlen_le_length (s : bytes) (n : nat) : (strnlen s n <= List.length s)%nat.
Proof.
  revert s. induction n as [|n IH]; intros [|c s]; cbn; try lia.
  destruct (decide (c = NUL)); [lia|]. specialize (IH s). lia.
Qed.

Lemma strnlen_min (s : bytes) (n : nat) : strnlen s n = Nat.min (strlen s) n.
Proof.
  unfold strlen. revert s. induction n as [|n IH]; intros [|c s]; cbn; try lia.
  destruct (decide (c = NUL)); [reflexivity|]. rewrite IH. reflexivity.
Qed.

Lemma firstn_strnlen_length (s : bytes) (n : nat) :
  List.length (firstn (strnlen s n) s) = strnlen s n.
Proof. apply firstn_length_le, strnlen_le_length. Qed.

Lemma wrap_small (bits x : Z) :
  0 < bits -> - 2 ^ (bits - 1) <= x < 2 ^ (bits - 1) -> wrap bits x = x.
Proof.
  intros Hb Hx. unfold wrap.
  assert (H2 : 2 ^ bits = 2 * 2 ^ (bits - 1)).
  { replace bits with (Z.succ (bits - 1)) at 1 by lia.
    rewrite Z.pow_succ_r by lia. reflexivity. }
  rewrite Z.mod_small by lia. lia.
Qed.

Lemma C_int_small (x : Z) : - 2 ^ 31 <= x < 2 ^ 31 -> C_int x = x.
Proof. intros H. unfold C_int. apply wrap_small; [lia|exact H]. Qed.

Lemma go_int_small (x : Z) : - 2 ^ 63 <= x < 2 ^ 63 -> go_int x = x.
Proof. intros H. unfold go_int. apply wrap_small; [lia|exact H]. Qed.

(** ** The conversation callbacks *)

Section Conversation.

Import Pam.
Variable L : Libpam.

Lemma load_ok (p : loc) (P : PAM) (w : World) :
  objs w !! p = Some P -> load p w = Ok P w.
Proof. intros H. unfold load, bind, get. rewrite H. reflexivity. Qed.

Lemma io_Write_ok (id : Z) (W : Writer) (b : bytes) (w : World) :
  writers w !! id = Some W ->
  io_Write (Some id) b w =
  Ok (match broken W with
      | None => (Z.of_nat (List.length b), None)
      | Some e => (0, Some e)
      end)
     (set_writers (<[id := mkWriter (received W ++ [b]) (broken W)]> (writers w)) w).
Proof.
  intros H. unfold io_Write, bind, get, modify. rewrite H.
  destruct (broken W); reflexivity.
Qed.

Lemma writeStream_ok (p : loc) (P : PAM) (stream id : Z) (W : Writer)
      (s : bytes) (w : World) :
  objs w !! p = Some P ->
  (if decide (stream = syscall_Stderr) then stderr P else stdout P) = Some id ->
  writers w !! id = Some W ->
  writeStream p stream s w =
  Ok (match broken W with
      | None => (Z.of_nat (List.length (flat_map crlf s)), None)
      | Some e => (0, Some e)
      end)
     (set_writers
        (<[id := mkWriter (received W ++ [flat_map crlf s]) (broken W)]> (writers w)) w).
Proof.
  intros Hp Hid HW. unfold writeStream.
  unfold bind at 1. rewrite (load_ok _ _ _ Hp).
  rewrite Hid. unfold bind. rewrite (io_Write_ok _ _ _ _ HW).
  rewrite replace_LF_flat_map.
  destruct (broken W); reflexivity.
Qed.

(** C6: [writeStream] hands the writer the text with every newline turned
    into a carriage return and a newline: as many newlines come out as
    went in, and the text grows by one byte for each. *)
Theorem writeStream_translates_newlines
        (p : loc) (P : PAM) (stream id : Z) (W : Writer) (s : bytes) (w : World) :
  objs w !! p = Some P ->
  (if decide (stream = syscall_Stderr) then stderr P else stdout P) = Some id ->
  writers w !! id = Some W ->
  exists out r,
    writeStream p stream s w =
    Ok r (set_writers
            (<[id := mkWriter (received W ++ [out]) (broken W)]> (writers w)) w) /\
    out = flat_map crlf s /\
    newlines out = newlines s /\
    List.length out = (List.length s + newlines s)%nat /\
    bytes_Replace_all ["a"%char; LF; "b"%char; LF; "c"%char] [LF] [CR; LF] =
    ["a"%char; CR; LF; "b"%char; CR; LF; "c"%char].
Proof.
  intros Hp Hid HW. eexists _, _. split; [|split; [reflexivity|]].
  - apply (writeStream_ok _ _ _ _ _ _ _ Hp Hid HW).
  - split; [apply flat_map_crlf_newlines|].
    split; [apply flat_map_crlf_length|reflexivity].
Qed.

(** C7: a message longer than [PAM_MAX_MSG_SIZE] reaches [writeStream] cut
    to exactly that many bytes; nothing is logged and nothing fails for it. *)
Theorem writeCallback_truncates
        (index stream : Z) (s : bytes) (p : loc) (P : PAM) (id : Z) (W : Writer)
        (w : World) :
  0 <= PAM_MAX_MSG_SIZE L < 2 ^ 31 ->
  handlers w !! index = Some p ->
  objs w !! p = Some P ->
  (if decide (stream = syscall_Stderr) then stderr P else stdout P) = Some id ->
  writers w !! id = Some W ->
  Z.of_nat (strlen s) > PAM_MAX_MSG_SIZE L ->
  exists str,
    str = firstn (Z.to_nat (PAM_MAX_MSG_SIZE L)) s /\
    Z.of_nat (List.length str) = PAM_MAX_MSG_SIZE L /\
    writeCallback L index stream s w =
    Ok tt (set_writers
             (<[id := mkWriter (received W ++ [flat_map crlf str]) (broken W)]>
                (writers w)) w).
Proof.
  intros HM Hh Hp Hid HW Hlen.
  exists (firstn (Z.to_nat (PAM_MAX_MSG_SIZE L)) s).
  assert (Hn : strnlen s (Z.to_nat (PAM_MAX_MSG_SIZE L)) =
               Z.to_nat (PAM_MAX_MSG_SIZE L)).
  { rewrite strnlen_min. lia. }
  split; [reflexivity|]. split.
  - rewrite <- Hn at 1. rewrite firstn_strnlen_length, Hn. lia.
  - unfold writeCallback. unfold bind at 1, get. rewrite Hh.
    rewrite Hn, Z2Nat.id, C_int_small by lia.
    rewrite decide_False by lia.
    unfold bind, GoStringN.
    rewrite (writeStream_ok _ _ _ _ _ _ _ Hp Hid HW). reflexivity.
Qed.

Lemma readStream_ok (p : loc) (P : PAM) (echo : bool) (id : Z)
      (rd : list ReadResult) (w : World) :
  objs w !! p = Some P ->
  stdin P = Some id ->
  readers w !! id = Some rd ->
  readStream p echo w =
  Ok (match snd (fst (ReadString LF [] rd)) with
      | Some err => ([], Some (trace_Wrap err))
      | None => (fst (fst (ReadString LF [] rd)), None)
      end)
     (set_readers (<[id := snd (ReadString LF [] rd)]> (readers w)) w).
Proof.
  intros Hp Hid Hrd. unfold readStream.
  unfold bind at 1. rewrite (load_ok _ _ _ Hp). rewrite Hid.
  unfold bufio_ReadString. cbv beta iota delta [bind get]. rewrite Hrd.
  destruct (ReadString LF [] rd) as [[text err] rd']. cbn.
  destruct err; reflexivity.
Qed.

(** C8: a line longer than [PAM_MAX_RESP_SIZE - 1] bytes is answered cut
    to exactly that many bytes, so that the terminator [C.CString] appends
    still fits; a line that is not longer is answered as it was read. *)
Theorem readCallback_truncates
        (index e : Z) (p : loc) (P : PAM) (id : Z) (rd rd' : list ReadResult)
        (s : bytes) (w : World) :
  0 < PAM_MAX_RESP_SIZE L < 2 ^ 63 ->
  handlers w !! index = Some p ->
  objs w !! p = Some P ->
  stdin P = Some id ->
  readers w !! id = Some rd ->
  ReadString LF [] rd = ((s, None), rd') ->
  exists answer,
    readCallback L index e w =
    Ok (next_addr w)
       (set_next_addr (next_addr w + 1)
          (set_cheap (<[next_addr w := CStr (answer ++ [NUL])]> (cheap w))
             (set_readers (<[id := rd']> (readers w)) w))) /\
    (Z.of_nat (List.length s) > PAM_MAX_RESP_SIZE L - 1 ->
     answer = firstn (Z.to_nat (PAM_MAX_RESP_SIZE L - 1)) s /\
     Z.of_nat (List.length answer) = PAM_MAX_RESP_SIZE L - 1) /\
    (Z.of_nat (List.length s) <= PAM_MAX_RESP_SIZE L - 1 -> answer = s).
Proof.
  intros HM Hh Hp Hid Hrd Hread.
  assert (Hcb : forall answer,
             answer = (if decide (Z.of_nat (List.length s) > PAM_MAX_RESP_SIZE L - 1)
                       then firstn (Z.to_nat (PAM_MAX_RESP_SIZE L - 1)) s else s) ->
             readCallback L index e w =
             Ok (next_addr w)
                (set_next_addr (next_addr w + 1)
                   (set_cheap (<[next_addr w := CStr (answer ++ [NUL])]> (cheap w))
                      (set_readers (<[id := rd']> (readers w)) w)))).
  { intros answer ->. unfold readCallback. unfold bind at 1, get. rewrite Hh.
    unfold bind at 1. rewrite (readStream_ok _ _ _ _ _ _ Hp Hid Hrd), Hread.
    cbn [fst snd]. rewrite go_int_small by lia.
    destruct (decide (Z.of_nat (List.length s) > PAM_MAX_RESP_SIZE L - 1)) as [Hgt|Hle].
    - unfold bind, slice_to. rewrite decide_True by lia. reflexivity.
    - reflexivity. }
  destruct (decide (Z.of_nat (List.length s) > PAM_MAX_RESP_SIZE L - 1)) as [Hgt|Hle].
  - exists (firstn (Z.to_nat (PAM_MAX_RESP_SIZE L - 1)) s).
    split; [apply Hcb; reflexivity|]. split; [|lia].
    intros _. split; [reflexivity|]. rewrite length_firstn. lia.
  - exists s. split; [apply Hcb; reflexivity|]. split; [lia|reflexivity].
Qed.

(** C4: a callback that comes with an id that is not in [handlers] logs
    that and returns, the read callback with nil; a read that fails is
    logged and answered with nil too.  None of them panics, and nothing
    but the log (and the reader that was read) changes. *)
Theorem callbacks_tolerate_failures :
  (forall (index stream : Z) (s : bytes) (w : World),
      handlers w !! index = None ->
      writeCallback L index stream s w =
      Ok tt (set_errlog (errlog w ++ [NoWriteHandler index]) w)) /\
  (forall (index e : Z) (w : World),
      handlers w !! index = None ->
      readCallback L index e w =
      Ok 0 (set_errlog (errlog w ++ [NoReadHandler index]) w)) /\
  (forall (index e : Z) (p : loc) (P : PAM) (id : Z) (rd rd' : list ReadResult)
          (partial : bytes) (err : error) (w : World),
      handlers w !! index = Some p ->
      objs w !! p = Some P ->
      stdin P = Some id ->
      readers w !! id = Some rd ->
      ReadString LF [] rd = ((partial, Some err), rd') ->
      readCallback L index e w =
      Ok 0 (set_errlog (errlog w ++ [ReadFailed (trace_Wrap err)])
              (set_readers (<[id := rd']> (readers w)) w))).
Proof.
  split; [|split].
  - intros index stream s w Hh. unfold writeCallback, bind, get.
    rewrite Hh. reflexivity.
  - intros index e w Hh. unfold readCallback, bind, get.
    rewrite Hh. reflexivity.
  - intros index e p P id rd rd' partial err w Hh Hp Hid Hrd Hread.
    unfold readCallback. unfold bind at 1, get. rewrite Hh.
    unfold bind at 1. rewrite (readStream_ok _ _ _ _ _ _ Hp Hid Hrd), Hread.
    reflexivity.
Qed.

(** C5: without a configuration [Open] returns the bad-parameter error
    and leaves the process as it was: no handler registered, nothing
    allocated, no native call made. *)
Theorem Open_nil_config (w : World) :
  Open L None w =
  Ok (None, Some (trace_BadParameter "PAM configuration is required.")) w.
Proof. reflexivity. Qed.

End Conversation.

(** ** The handle registry *)

Section Registry.

Import Pam.

Lemma registerHandler_ok (p : loc) (w w' : World) (id : Z) :
  registerHandler p w = Ok id w' ->
  id = go_int (handlerCount w + 1) /\
  handlerCount w' = id /\
  handlers w' = <[id := p]> (handlers w).
Proof.
  unfold registerHandler, make_pam_conv, malloc, assign, load, record.
  cbv beta iota delta [bind get modify ret panic]. cbn.
  destruct (objs w !! p); intros H; inversion H; subst. auto.
Qed.

Lemma unregisterHandler_ok (id : Z) (w w' : World) :
  unregisterHandler id w = Ok tt w' ->
  handlerCount w' = handlerCount w /\
  handlers w' = delete id (handlers w).
Proof. unfold unregisterHandler, modify. intros H. inversion H. auto. Qed.

Lemma registry_run_inv (n : nat) (w0 w : World) :
  handlerCount w0 = 0 ->
  handlers w0 = ∅ ->
  registry_run n w0 w ->
  Z.of_nat n <= max_go_int ->
  registry_inv n w.
Proof.
  intros Hc Hh Hrun. induction Hrun as
      [w | n w0 w w' p id Hrun IH Hreg | n w0 w w' id Hrun IH Hun
       | n w0 w w' Hrun IH Hcount Hhandlers]; intros Hn.
  - split; [exact Hc|]. intros id p. rewrite Hh, lookup_empty. discriminate.
  - destruct (IH Hc Hh) as [IHc IHk]; [lia|].
    destruct (registerHandler_ok _ _ _ _ Hreg) as (Hid & Hc' & Hh').
    rewrite IHc in Hid. rewrite go_int_small in Hid
      by (unfold max_go_int in Hn; lia).
    split; [lia|]. intros j q. rewrite Hh'.
    destruct (decide (id = j)) as [<-|Hne].
    + intros _. lia.
    + rewrite lookup_insert_ne by exact Hne. intros Hj.
      specialize (IHk _ _ Hj). lia.
  - destruct (IH Hc Hh Hn) as [IHc IHk].
    destruct (unregisterHandler_ok _ _ _ Hun) as (Hc' & Hh').
    split; [congruence|]. intros j q. rewrite Hh'.
    destruct (decide (id = j)) as [<-|Hne].
    + rewrite lookup_delete_eq. discriminate.
    + rewrite lookup_delete_ne by exact Hne. apply IHk.
  - destruct (IH Hc Hh Hn) as [IHc IHk].
    split; [congruence|]. intros j q. rewrite Hhandlers. apply IHk.
Qed.


End Registry.

(** ** The transaction *)

Section Transaction.

Import Pam.
Variable L : Libpam.

Lemma go_frame_refl (w : World) : go_frame w w.
Proof. repeat split. Qed.

Lemma go_frame_trans (w1 w2 w3 : World) :
  go_frame w1 w2 -> go_frame w2 w3 -> go_frame w1 w3.
Proof.
  intros (H1 & H2 & H3 & H4 & H5) (K1 & K2 & K3 & K4 & K5).
  repeat split; congruence.
Qed.

Lemma framed_ret {A} (a : A) : framed (ret a).
Proof. intros w. apply go_frame_refl. Qed.

Lemma framed_panic {A} : framed (@panic A).
Proof. intros w. apply go_frame_refl. Qed.

Lemma framed_get : framed get.
Proof. intros w. apply go_frame_refl. Qed.

Lemma framed_bind {A B} (m : M A) (k : A -> M B) :
  framed m -> (forall a, framed (k a)) -> framed (bind m k).
Proof.
  intros Hm Hk w. unfold bind. specialize (Hm w).
  destruct (m w) as [a w1|w1]; cbn in Hm; [|exact Hm].
  eapply go_frame_trans; [exact Hm|apply Hk].
Qed.

Lemma framed_modify (f : World -> World) :
  (forall w, go_frame w (f w)) -> framed (modify f).
Proof. intros Hf w. apply Hf. Qed.

Lemma framed_load (p : loc) : framed (load p).
Proof.
  apply framed_bind; [apply framed_get|]. intros w.
  destruct (objs w !! p); [apply framed_ret|apply framed_panic].
Qed.

Ltac framed_step :=
  lazymatch goal with
  | |- framed (match ?x with _ => _ end) => destruct x
  | |- framed (ret _) => apply framed_ret
  | |- framed panic => apply framed_panic
  | |- framed get => apply framed_get
  | |- framed (load _) => apply framed_load
  | |- framed (modify _) => apply framed_modify; intros ?; repeat split
  | |- framed (bind _ _) => apply framed_bind; [|intros ?]
  end.

Lemma framed_logErrorf (e : LogEntry) : framed (logErrorf e).
Proof. unfold logErrorf. repeat framed_step. Qed.

Lemma framed_io_Write (writer : option Z) (b : bytes) : framed (io_Write writer b).
Proof. unfold io_Write. repeat framed_step. Qed.

Lemma framed_bufio_ReadString (reader : option Z) (delim : ascii) :
  framed (bufio_ReadString reader delim).
Proof. unfold bufio_ReadString. repeat framed_step. Qed.

Lemma framed_C_CString (s : bytes) : framed (C_CString s).
Proof. unfold C_CString, malloc. repeat framed_step. Qed.

Lemma framed_writeStream (p : loc) (stream : Z) (s : bytes) :
  framed (writeStream p stream s).
Proof.
  unfold writeStream. repeat framed_step. apply framed_io_Write.
Qed.

Lemma framed_readStream (p : loc) (echo : bool) : framed (readStream p echo).
Proof.
  unfold readStream. repeat framed_step. apply framed_bufio_ReadString.
Qed.

Lemma writeCallback_frame (index stream : Z) (s : bytes) :
  framed (writeCallback L index stream s).
Proof.
  unfold writeCallback. repeat framed_step.
  - apply framed_writeStream.
  - apply framed_logErrorf.
Qed.

Lemma readCallback_frame (index e : Z) : framed (readCallback L index e).
Proof.
  unfold readCallback, slice_to. repeat framed_step;
    first [apply framed_readStream | apply framed_logErrorf | apply framed_C_CString].
Qed.

Lemma run_native_frame {R} (n : Native R) (w : World) :
  go_frame w (final (run_native L n w)).
Proof.
  revert w. induction n as [r | index stream s k IH | index e k IH]; intros w.
  - apply go_frame_refl.
  - cbn [run_native]. unfold bind.
    pose proof (writeCallback_frame index stream s w) as Hf.
    destruct (writeCallback L index stream s w) as [[] w1|w1]; cbn in Hf.
    + eapply go_frame_trans; [exact Hf|apply IH].
    + exact Hf.
  - cbn [run_native]. unfold bind at 1.
    pose proof (readCallback_frame index e w) as Hf.
    destruct (readCallback L index e w) as [a w1|w1]; cbn in Hf.
    + unfold bind, get. eapply go_frame_trans; [exact Hf|apply IH].
    + exact Hf.
Qed.

(** A call into libpam returns, and is recorded with what it returned, or
    the process dies in it; the registry and the sessions are as before. *)
Lemma call_native_cases {R} (ev : option R -> Event) (n : Native R) (w : World) :
  (exists r w1, go_frame w w1 /\
                call_native L ev n w = Ok r (set_calls (calls w ++ [ev (Some r)]) w1)) \/
  (exists w1, go_frame w w1 /\
              call_native L ev n w = Crash (set_calls (calls w ++ [ev None]) w1)).
Proof.
  unfold call_native. pose proof (run_native_frame n w) as Hf.
  destruct (run_native L n w) as [r w1|w1]; cbn in Hf.
  - left. exists r, w1. split; [exact Hf|].
    destruct Hf as (_ & _ & _ & _ & ->). reflexivity.
  - right. exists w1. split; [exact Hf|].
    destruct Hf as (_ & _ & _ & _ & ->). reflexivity.
Qed.

Ltac fields :=
  cbn [objs set_objs set_next_obj set_cheap set_next_addr set_handlerCount
       set_calls set_handlers set_errlog set_readers set_writers
       handlerCount handlers next_obj errlog cheap next_addr calls readers
       writers final returned fst snd
       pamh conv retval stdin stdout stderr service_name user handlerIndex].

Ltac fields_in H :=
  cbn [objs set_objs set_next_obj set_cheap set_next_addr set_handlerCount
       set_calls set_handlers set_errlog set_readers set_writers
       handlerCount handlers next_obj errlog cheap next_addr calls readers
       writers final returned fst snd
       pamh conv retval stdin stdout stderr service_name user handlerIndex] in H.

(** Runs the steps of the Go code up to the next call into libpam. *)
Ltac run :=
  cbv beta iota delta
      [bind new_PAM C_CString C_free malloc assign load get modify ret
       registerHandler unregisterHandler make_pam_conv record codeToError panic
       set_pamh set_conv set_retval set_service_name set_user set_handlerIndex];
  fields.

(** Resolves the reads of the session through what is known of [objs]. *)
Ltac settle :=
  fields;
  repeat (first [ match goal with H : objs _ = _ |- _ => rewrite H end
                | match goal with H : objs _ !! _ = _ |- _ => rewrite H end
                | rewrite lookup_insert_eq
                | rewrite insert_insert_eq ];
          fields).

(** Splits on how the next call into libpam ends. *)
Ltac native H :=
  match goal with
  | |- context [call_native L ?ev ?n ?w] =>
    let r := fresh "r" in
    let w1 := fresh "w" in
    let Hf := fresh "Hf" in
    destruct (call_native_cases ev n w)
      as [(r & w1 & Hf & ->) | (w1 & Hf & ->)];
    destruct Hf as (_ & _ & H & _ & _);
    fields; fields_in H
  end.

Ltac strerror :=
  match goal with
  | |- context [_pam_strerror ?lib ?w0 ?h ?p ?c] =>
    destruct (_pam_strerror lib w0 h p c); fields
  end.

Ltac finish :=
  rewrite <- ?app_assoc; cbn [app];
  eexists; (split; [reflexivity|]); econstructor; assumption.

Lemma Open_run (cfg : Config) (w : World) :
  exists evs,
    calls (final (Open L (Some cfg) w)) = calls w ++ evs /\
    open_run L evs (returned (Open L (Some cfg) w)).
Proof.
  unfold Open. run. settle.
  native Hf1; [|finish]. settle.
  destruct r as [r1 h1]; fields.
  destruct (decide (r1 <> PAM_SUCCESS L)) as [Hr1|Hr1].
  { settle. strerror. all: finish. }
  apply dec_stable in Hr1. subst r1. settle.
  native Hf2; [|finish]. settle.
  destruct (decide (r <> PAM_SUCCESS L)) as [Hr2|Hr2].
  { settle. strerror. all: finish. }
  apply dec_stable in Hr2. subst r. settle.
  native Hf3; [|finish]. settle.
  destruct (decide (r <> PAM_SUCCESS L)) as [Hr3|Hr3].
  { settle. strerror. all: finish. }
  apply dec_stable in Hr3. subst r. fields. finish.
Qed.

Lemma Close_run (p : loc) (P : PAM) (w : World) :
  objs w !! p = Some P ->
  exists evs,
    calls (final (Close L p w)) = calls w ++ evs /\
    close_run L P evs (returned (Close L p w)).
Proof.
  intros Hp. unfold Close. run. settle.
  native Hf1; [|finish]. settle.
  destruct (decide (r <> PAM_SUCCESS L)) as [Hr1|Hr1].
  { settle. strerror. all: finish. }
  apply dec_stable in Hr1. subst r. settle.
  native Hf2; [|finish]. settle.
  destruct (decide (r <> PAM_SUCCESS L)) as [Hr2|Hr2].
  { settle. strerror. all: finish. }
  apply dec_stable in Hr2. subst r. settle.
  rewrite <- ?app_assoc; cbn [app].
  eexists; (split; [reflexivity|]). apply session_closed.
Qed.

(** The first failure ends [Open]: what it returns is nil and the error
    made of the text [_pam_strerror] had for the status. *)
Lemma Open_failure_result (cfg : Config) (w : World) :
  exists evs,
    calls (final (Open L (Some cfg) w)) = calls w ++ evs /\
    forall h r text,
      In (EvStrerror h r text) evs ->
      returned (Open L (Some cfg) w) = Some (None, error_of_text text).
Proof.
  destruct (Open_run cfg w) as (evs & Hcalls & Hrun).
  exists evs. split; [exact Hcalls|].
  intros h r text Hin.
  destruct Hrun; cbn in Hin;
    repeat match goal with
           | H : _ \/ _ |- _ => destruct H
           | H : False |- _ => destruct H
           | H : _ = EvStrerror _ _ _ |- _ => inversion H; subst; clear H
           end; reflexivity.
Qed.

(** Once closing the session failed, [Close] makes no further call but
    the lookup of the text: no transaction end and no [free]. *)
Lemma Close_stops_at_failed_close_session (p : loc) (P : PAM) (w : World) :
  objs w !! p = Some P ->
  exists evs,
    calls (final (Close L p w)) = calls w ++ evs /\
    forall h f r,
      In (EvCloseSession h f (Some r)) evs ->
      r <> PAM_SUCCESS L ->
      forall e, In e evs ->
           (forall h' st ret, e <> EvEnd h' st ret) /\ (forall a, e <> EvFree a).
Proof.
  intros Hp. destruct (Close_run p P w Hp) as (evs & Hcalls & Hrun).
  exists evs. split; [exact Hcalls|].
  intros h f r Hin Hr e He.
  destruct Hrun; cbn in Hin, He;
    repeat match goal with
           | H : _ \/ _ |- _ => destruct H
           | H : False |- _ => destruct H
           | H : _ = EvCloseSession _ _ _ |- _ => inversion H; subst; clear H
           end;
    try contradiction; split; intros; discriminate.
Qed.


(** *** What the calls into libpam leave of the C heap *)

Lemma heap_kept_refl (w : World) : heap_kept w w.
Proof. split; [lia|reflexivity]. Qed.

Lemma heap_kept_trans (w1 w2 w3 : World) :
  heap_kept w1 w2 -> heap_kept w2 w3 -> heap_kept w1 w3.
Proof.
  intros [Hn1 Hc1] [Hn2 Hc2]. split; [lia|].
  intros a Ha. rewrite Hc2 by lia. apply Hc1, Ha.
Qed.

Lemma keeps_heap_ret {A} (a : A) : keeps_heap (ret a).
Proof. intros w. apply heap_kept_refl. Qed.

Lemma keeps_heap_panic {A} : keeps_heap (@panic A).
Proof. intros w. apply heap_kept_refl. Qed.

Lemma keeps_heap_get : keeps_heap get.
Proof. intros w. apply heap_kept_refl. Qed.

Lemma keeps_heap_bind {A B} (m : M A) (k : A -> M B) :
  keeps_heap m -> (forall a, keeps_heap (k a)) -> keeps_heap (bind m k).
Proof.
  intros Hm Hk w. unfold bind. specialize (Hm w).
  destruct (m w) as [a w1|w1]; cbn in Hm; [|exact Hm].
  eapply heap_kept_trans; [exact Hm|apply Hk].
Qed.

Lemma keeps_heap_modify (f : World -> World) :
  (forall w, heap_kept w (f w)) -> keeps_heap (modify f).
Proof. intros Hf w. apply Hf. Qed.

Lemma keeps_heap_load (p : loc) : keeps_heap (load p).
Proof.
  apply keeps_heap_bind; [apply keeps_heap_get|]. intros w.
  destruct (objs w !! p); [apply keeps_heap_ret|apply keeps_heap_panic].
Qed.

Ltac heap_step :=
  lazymatch goal with
  | |- keeps_heap (match ?x with _ => _ end) => destruct x
  | |- keeps_heap (ret _) => apply keeps_heap_ret
  | |- keeps_heap panic => apply keeps_heap_panic
  | |- keeps_heap get => apply keeps_heap_get
  | |- keeps_heap (load _) => apply keeps_heap_load
  | |- keeps_heap (modify _) =>
    apply keeps_heap_modify; intros ?; split; cbn;
    [lia | intros ? ?; rewrite ?lookup_insert_ne by lia; reflexivity]
  | |- keeps_heap (bind _ _) => apply keeps_heap_bind; [|intros ?]
  end.

Lemma keeps_heap_logErrorf (e : LogEntry) : keeps_heap (logErrorf e).
Proof. unfold logErrorf. repeat heap_step. Qed.

Lemma keeps_heap_io_Write (writer : option Z) (b : bytes) :
  keeps_heap (io_Write writer b).
Proof. unfold io_Write. repeat heap_step. Qed.

Lemma keeps_heap_bufio_ReadString (reader : option Z) (delim : ascii) :
  keeps_heap (bufio_ReadString reader delim).
Proof. unfold bufio_ReadString. repeat heap_step. Qed.

Lemma keeps_heap_malloc (b : Block) : keeps_heap (malloc b).
Proof.
  intros w. unfold malloc, bind, get, modify, ret. cbn. split; cbn; [lia|].
  intros a Ha. apply lookup_insert_ne. lia.
Qed.

Lemma keeps_heap_C_CString (s : bytes) : keeps_heap (C_CString s).
Proof. apply keeps_heap_malloc. Qed.

Lemma keeps_heap_writeCallback (index stream : Z) (s : bytes) :
  keeps_heap (writeCallback L index stream s).
Proof.
  unfold writeCallback, writeStream. repeat heap_step;
    first [apply keeps_heap_io_Write | apply keeps_heap_logErrorf].
Qed.

Lemma keeps_heap_readCallback (index e : Z) :
  keeps_heap (readCallback L index e).
Proof.
  unfold readCallback, readStream, slice_to. repeat heap_step;
    first [apply keeps_heap_bufio_ReadString | apply keeps_heap_logErrorf
          | apply keeps_heap_C_CString].
Qed.

Lemma keeps_heap_run_native {R} (n : Native R) : keeps_heap (run_native L n).
Proof.
  induction n as [r | index stream s k IH | index e k IH].
  - apply keeps_heap_ret.
  - cbn [run_native]. apply keeps_heap_bind;
      [apply keeps_heap_writeCallback|intros _; exact IH].
  - cbn [run_native]. apply keeps_heap_bind; [apply keeps_heap_readCallback|].
    intros a. apply keeps_heap_bind; [apply keeps_heap_get|].
    intros w. apply IH.
Qed.

(** A call into libpam, with all that is known of the state it leaves. *)
Lemma call_native_full {R} (ev : option R -> Event) (n : Native R) (w : World) :
  exists w1,
    go_frame w w1 /\ heap_kept w w1 /\
    ((exists r, call_native L ev n w =
                Ok r (set_calls (calls w ++ [ev (Some r)]) w1)) \/
     call_native L ev n w = Crash (set_calls (calls w ++ [ev None]) w1)).
Proof.
  unfold call_native.
  pose proof (run_native_frame n w) as Hf.
  pose proof (keeps_heap_run_native n w) as Hh.
  destruct (run_native L n w) as [r w1|w1]; cbn in Hf, Hh;
    exists w1; (split; [exact Hf|]); (split; [exact Hh|]);
    destruct Hf as (_ & _ & _ & _ & ->); [left; exists r|right]; reflexivity.
Qed.

(** *** The state [Open] and [Close] leave *)

Ltac native_full :=
  match goal with
  | |- context [call_native L ?ev ?n ?w] =>
    let w1 := fresh "w" in
    let r := fresh "r" in
    let Hcount := fresh "Hcount" in
    let Hhandlers := fresh "Hhandlers" in
    let Hobjs := fresh "Hobjs" in
    let Hnext := fresh "Hnext" in
    let Hcheap := fresh "Hcheap" in
    destruct (call_native_full ev n w)
      as (w1 & (Hcount & Hhandlers & Hobjs & _ & _) & (Hnext & Hcheap)
          & [[r ->]| ->]);
    fields; fields_in Hcount; fields_in Hhandlers; fields_in Hobjs;
    fields_in Hnext; fields_in Hcheap
  end.

(** Reads the registry and the C heap of the state reached through what
    the calls into libpam are known to keep. *)
Ltac known :=
  fields;
  repeat match goal with
         | H : handlerCount ?w1 = _ |- context [handlerCount ?w1] => rewrite H
         | H : handlers ?w1 = _ |- context [handlers ?w1] => rewrite H
         | H : forall a, a < _ -> cheap ?w1 !! a = _
           |- context [cheap ?w1 !! ?a] => rewrite (H a) by lia
         end;
  fields.

Ltac open_done :=
  unfold open_post; fields;
  repeat match goal with
         | |- context [?x + 2] => replace (x + 2) with (x + 1 + 1) by lia
         end;
  repeat lazymatch goal with
         | |- _ /\ _ => split
         | |- exists _, _ => eexists
         | |- forall _, _ => intros
         end;
  try (known; settle; reflexivity);
  try (known; rewrite ?lookup_insert_ne by lia; apply lookup_insert_eq);
  try (known; rewrite ?lookup_insert_ne by lia; reflexivity);
  try (fields; lia); try discriminate;
  try match goal with
      | H : Some _ = Some _ |- _ => inversion H; subst; reflexivity
      end.

Lemma Open_state (cfg : Config) (w : World) :
  open_post L cfg w (Open L (Some cfg) w).
Proof.
  unfold Open. run. settle.
  native_full; settle; [|open_done].
  destruct r as [r1 h1]; fields.
  destruct (decide (r1 <> PAM_SUCCESS L)) as [Hr1|Hr1].
  { settle. strerror. all: open_done. }
  apply dec_stable in Hr1. subst r1. settle.
  native_full; settle; [|open_done].
  destruct (decide (r <> PAM_SUCCESS L)) as [Hr2|Hr2].
  { settle. strerror. all: open_done. }
  apply dec_stable in Hr2. subst r. settle.
  native_full; settle; [|open_done].
  destruct (decide (r <> PAM_SUCCESS L)) as [Hr3|Hr3].
  { settle. strerror. all: open_done. }
  apply dec_stable in Hr3. subst r. fields. open_done.
Qed.

Ltac no_free :=
  let a := fresh "a" in
  let Hin := fresh "Hin" in
  intros [a Hin]; cbn in Hin;
  repeat match goal with
         | H : _ \/ _ |- _ => destruct H
         | H : False |- _ => destruct H
         end; discriminate.

Ltac close_done :=
  unfold close_post; fields; rewrite <- ?app_assoc; cbn [app];
  eexists; (split; [reflexivity|]);
  (split; [econstructor; assumption|]);
  (split; [eexists; (split; [settle; reflexivity|]); fields; repeat split|]);
  (split;
   [no_free
   |intros _; split;
    [known; reflexivity
    |split; fields; [lia|intros ? ?; known; reflexivity]]]).

Lemma Close_state (p : loc) (P : PAM) (w : World) :
  objs w !! p = Some P ->
  close_post L p P w (Close L p w).
Proof.
  intros Hp. unfold Close. run. settle.
  native_full; settle; [|close_done].
  destruct (decide (r <> PAM_SUCCESS L)) as [Hr1|Hr1].
  { settle. strerror. all: close_done. }
  apply dec_stable in Hr1. subst r. settle.
  native_full; settle; [|close_done].
  destruct (decide (r <> PAM_SUCCESS L)) as [Hr2|Hr2].
  { settle. strerror. all: close_done. }
  apply dec_stable in Hr2. subst r. settle.
  unfold close_post; fields; rewrite <- ?app_assoc; cbn [app].
  eexists; (split; [reflexivity|]).
  split; [apply session_closed|].
  split; [eexists; (split; [settle; reflexivity|]); fields; repeat split|].
  split.
  - intros _. split; [known; reflexivity|].
    repeat split; rewrite !lookup_delete; repeat case_decide;
      try reflexivity; congruence.
  - intros Hnone. exfalso. apply Hnone. exists (conv P). cbn. auto.
Qed.

(** X1: whether [Open] on a configuration succeeds, fails or dies in a
    callback, it leaves the new session registered under the next id and
    the two strings and the conversation descriptor allocated; it never
    unregisters, and no block that was on the C heap before has changed. *)
Theorem Open_always_registers (cfg : Config) (w : World) :
  handlerCount (final (Open L (Some cfg) w)) = go_int (handlerCount w + 1) /\
  handlers (final (Open L (Some cfg) w)) =
  <[go_int (handlerCount w + 1) := next_obj w]> (handlers w) /\
  cheap (final (Open L (Some cfg) w)) !! next_addr w =
  Some (CStr (ServiceName cfg ++ [NUL])) /\
  cheap (final (Open L (Some cfg) w)) !! (next_addr w + 1) =
  Some (CStr (Username cfg ++ [NUL])) /\
  cheap (final (Open L (Some cfg) w)) !! (next_addr w + 2) =
  Some (PamConv (C_int (go_int (handlerCount w + 1)))) /\
  forall a, a < next_addr w ->
            cheap (final (Open L (Some cfg) w)) !! a = cheap w !! a.
Proof.
  destruct (Open_state cfg w) as (H1 & H2 & H3 & H4 & H5 & H6 & _).
  repeat split; assumption.
Qed.

(** X2: when [Open] returns a session the error is nil, all three calls
    reported success, and the session is the registered one: its handler
    index leads back to it, it holds the streams of the configuration and
    the C copies of the service name and the user name. *)
Theorem Open_returns_registered_session
        (cfg : Config) (w : World) (q : loc) (e : option error) :
  returned (Open L (Some cfg) w) = Some (Some q, e) ->
  e = None /\
  (exists ix a s u h,
      calls (final (Open L (Some cfg) w)) =
      calls w ++ [EvMakePamConv ix a;
                  EvStart s u a (Some (PAM_SUCCESS L, h));
                  EvAcctMgmt h 0 (Some (PAM_SUCCESS L));
                  EvOpenSession h 0 (Some (PAM_SUCCESS L))]) /\
  exists P,
    objs (final (Open L (Some cfg) w)) !! q = Some P /\
    handlers (final (Open L (Some cfg) w)) !! handlerIndex P = Some q /\
    retval P = PAM_SUCCESS L /\
    stdin P = Stdin cfg /\ stdout P = Stdout cfg /\ stderr P = Stderr cfg /\
    cheap (final (Open L (Some cfg) w)) !! service_name P =
    Some (CStr (ServiceName cfg ++ [NUL])) /\
    cheap (final (Open L (Some cfg) w)) !! user P =
    Some (CStr (Username cfg ++ [NUL])).
Proof.
  intros Hret.
  destruct (Open_state cfg w)
    as (_ & Hh & Hsn & Hu & _ & _ & P & HP & Hin & Hout & Herr & Hsn' & Hu' & _
        & Hid & Hq).
  destruct (Hq q e Hret) as (-> & -> & Hrv).
  split; [reflexivity|]. split.
  - destruct (Open_run cfg w) as (evs & Hcalls & Hrun).
    rewrite Hret in Hrun. inversion Hrun; subst.
    rewrite Hcalls. eauto 10.
  - exists P. rewrite Hsn', Hu', Hid, Hh, lookup_insert_eq.
    repeat split; assumption.
Qed.

(** X3: while [handlerCount] is below the range of C's [int], the index
    written into the conversation descriptor is the key under which
    [Open] registered the session, so the callbacks of this transaction
    are dispatched to this session. *)
Theorem Open_descriptor_resolves (cfg : Config) (w : World) :
  0 <= handlerCount w < 2 ^ 31 - 1 ->
  exists P index,
    objs (final (Open L (Some cfg) w)) !! next_obj w = Some P /\
    cheap (final (Open L (Some cfg) w)) !! conv P = Some (PamConv index) /\
    handlers (final (Open L (Some cfg) w)) !! index = Some (next_obj w).
Proof.
  intros Hrange.
  destruct (Open_state cfg w)
    as (_ & Hh & _ & _ & Hc & _ & P & HP & _ & _ & _ & _ & _ & Hconv & _).
  exists P, (handlerCount w + 1). split; [exact HP|].
  rewrite go_int_small in Hc, Hh by lia. rewrite C_int_small in Hc by lia.
  rewrite Hconv, Hc, Hh, lookup_insert_eq. split; reflexivity.
Qed.


(** X5: [Close] calls transaction end only after close-session reported
    success, and then with [PAM_SUCCESS] as the status; it frees only
    after transaction end reported success, and then the conversation
    descriptor, the service name and the user name, each once. *)
Theorem Close_call_order (p : loc) (P : PAM) (w : World) :
  objs w !! p = Some P ->
  exists evs,
    calls (final (Close L p w)) = calls w ++ evs /\
    (forall h st ret,
        In (EvEnd h st ret) evs ->
        h = pamh P /\ st = PAM_SUCCESS L /\
        exists rest,
          evs = EvCloseSession (pamh P) 0 (Some (PAM_SUCCESS L)) ::
                EvEnd h st ret :: rest) /\
    (forall a,
        In (EvFree a) evs ->
        exists before,
          evs = before ++ [EvEnd (pamh P) (PAM_SUCCESS L) (Some (PAM_SUCCESS L));
                           EvFree (conv P); EvFree (service_name P);
                           EvFree (user P)]).
Proof.
  intros Hp. destruct (Close_run p P w Hp) as (evs & Hcalls & Hrun).
  exists evs. split; [exact Hcalls|]. split.
  - intros h st ret Hin.
    destruct Hrun; cbn in Hin;
      repeat match goal with
             | H : _ \/ _ |- _ => destruct H
             | H : False |- _ => destruct H
             | H : _ = EvEnd _ _ _ |- _ => inversion H; subst; clear H
             end; try discriminate; eauto.
  - intros a Hin.
    destruct Hrun; cbn in Hin;
      repeat match goal with
             | H : _ \/ _ |- _ => destruct H
             | H : False |- _ => destruct H
             end; try discriminate;
      exists [EvCloseSession (pamh P) 0 (Some (PAM_SUCCESS L))]; reflexivity.
Qed.

(** X6: [Close] has no guard against a second call: after a [Close] that
    returned, another [Close] on the same session calls close-session on
    the same transaction handle again, and whatever it frees is one of the
    three pointers of the session, freed or not. *)
Theorem Close_again_same_pointers
        (p : loc) (P : PAM) (w w1 : World) (r : option error) :
  objs w !! p = Some P ->
  Close L p w = Ok r w1 ->
  exists ret rest,
    calls (final (Close L p w1)) =
    calls w1 ++ EvCloseSession (pamh P) 0 ret :: rest /\
    forall a, In (EvFree a) rest ->
              a = conv P \/ a = service_name P \/ a = user P.
Proof.
  intros Hp Hclose.
  destruct (Close_state p P w Hp)
    as (_ & _ & _ & (P' & HP' & Hh & Hc & Hs & Hu & _) & _).
  rewrite Hclose in HP'. cbn [final] in HP'.
  destruct (Close_run p P' w1 HP') as (evs & Hcalls & Hrun).
  destruct Hrun; rewrite ?Hh, ?Hc, ?Hs, ?Hu in Hcalls;
    eexists _, _; (split; [exact Hcalls|]);
    intros a Hin; cbn in Hin;
    repeat match goal with
           | H : _ \/ _ |- _ => destruct H
           | H : False |- _ => destruct H
           | H : EvFree _ = EvFree _ |- _ => inversion H; subst; clear H
           end; try discriminate; auto.
Qed.

(** X7: whatever callbacks a call into libpam makes, it leaves the
    registry, the session objects and the record of the native calls as
    they were, and every block that was on the C heap still holds what it
    held: callbacks only log, read and write the streams, and allocate. *)
Theorem native_call_footprint {R} (n : Native R) (w : World) :
  handlerCount (final (run_native L n w)) = handlerCount w /\
  handlers (final (run_native L n w)) = handlers w /\
  objs (final (run_native L n w)) = objs w /\
  calls (final (run_native L n w)) = calls w /\
  forall a, a < next_addr w ->
            cheap (final (run_native L n w)) !! a = cheap w !! a.
Proof.
  destruct (run_native_frame n w) as (H1 & H2 & H3 & _ & H5).
  destruct (keeps_heap_run_native n w) as [_ Hc].
  repeat split; assumption.
Qed.

End Transaction.

(** ** Failures the bridge mishandles *)

Section Defects.

Import Pam.

(** C1: on a session whose close-session call fails (here with
    [PAM_SESSION_ERR]), [Close] returns the error as soon as it has its
    text: transaction end is never called, the conversation descriptor
    and the two strings stay allocated, and the handler stays registered. *)
Theorem Close_abandons_teardown_on_failure :
  returned (Close sample_failing_close 1 (sample_session sample_failing_close)) =
  Some (Some (trace_BadParameter
                "Cannot make/remove an entry for the specified session")) /\
  calls (final (Close sample_failing_close 1 (sample_session sample_failing_close))) =
  calls (sample_session sample_failing_close) ++
  [EvCloseSession 77 0 (Some 14);
   EvStrerror 77 14
     (Some "Cannot make/remove an entry for the specified session"%string)] /\
  cheap (final (Close sample_failing_close 1 (sample_session sample_failing_close)))
    !! 3 = Some (PamConv 1) /\
  cheap (final (Close sample_failing_close 1 (sample_session sample_failing_close)))
    !! 1 = Some (CStr (list_ascii_of_string "sshd" ++ [NUL])) /\
  cheap (final (Close sample_failing_close 1 (sample_session sample_failing_close)))
    !! 2 = Some (CStr (list_ascii_of_string "bob" ++ [NUL])) /\
  handlers (final (Close sample_failing_close 1 (sample_session sample_failing_close)))
    !! 1 = Some 1%positive.
Proof. vm_compute. repeat split. Qed.

(** C2: when [_pam_strerror] has no text for the status, [codeToError]
    returns nil: a start that fails with [PAM_ABORT] makes [Open] return a
    nil session with a nil error, and a failed close-session makes [Close]
    return nil, as if it had succeeded. *)
Theorem failure_without_text_is_swallowed :
  returned (Open sample_mute_start (Some sample_config) sample_world) =
  Some (None, None) /\
  calls (final (Open sample_mute_start (Some sample_config) sample_world)) =
  [EvMakePamConv 1 3; EvStart 1 2 3 (Some (26, 77)); EvStrerror 77 26 None] /\
  returned (Close sample_mute_close 1 (sample_session sample_mute_close)) =
  Some None /\
  calls (final (Close sample_mute_close 1 (sample_session sample_mute_close))) =
  calls (sample_session sample_mute_close) ++
  [EvCloseSession 77 0 (Some 14); EvStrerror 77 14 None].
Proof. vm_compute. repeat split. Qed.

End Defects.

(** ** More on the conversation callbacks *)

Section ConversationEdges.

Import Pam.
Variable L : Libpam.


(** X8: whatever the length of a message, the writer of the session gets
    its text up to the first NUL or up to [PAM_MAX_MSG_SIZE] bytes,
    whichever comes first, with the newlines translated; a failure of the
    writer is neither logged nor reported to libpam. *)
Theorem writeCallback_writes_capped_text
        (index stream : Z) (s : bytes) (p : loc) (P : PAM) (id : Z) (W : Writer)
        (w : World) :
  0 <= PAM_MAX_MSG_SIZE L < 2 ^ 31 ->
  handlers w !! index = Some p ->
  objs w !! p = Some P ->
  (if decide (stream = syscall_Stderr) then stderr P else stdout P) = Some id ->
  writers w !! id = Some W ->
  writeCallback L index stream s w =
  Ok tt (set_writers
           (<[id := mkWriter
                      (received W ++
                       [flat_map crlf
                          (firstn (Nat.min (strlen s)
                                           (Z.to_nat (PAM_MAX_MSG_SIZE L))) s)])
                      (broken W)]>
              (writers w)) w).
Proof.
  intros HM Hh Hp Hid HW.
  unfold writeCallback. unfold bind at 1, get. rewrite Hh.
  pose proof (strnlen_le_max s (Z.to_nat (PAM_MAX_MSG_SIZE L))) as Hle.
  rewrite C_int_small by lia. rewrite decide_False by lia.
  unfold bind, GoStringN. rewrite Nat2Z.id, strnlen_min.
  rewrite (writeStream_ok _ _ _ _ _ _ _ Hp Hid HW). reflexivity.
Qed.

(** X9: a session configured without the stream a callback needs makes
    the callback panic: the write callback when the writer it selects is
    nil, the read callback when the reader is nil.  Nothing is logged and
    the process dies in the state it was in. *)
Theorem callbacks_panic_on_nil_stream :
  (forall (index stream : Z) (s : bytes) (p : loc) (P : PAM) (w : World),
      0 <= PAM_MAX_MSG_SIZE L < 2 ^ 31 ->
      handlers w !! index = Some p ->
      objs w !! p = Some P ->
      (if decide (stream = syscall_Stderr) then stderr P else stdout P) = None ->
      writeCallback L index stream s w = Crash w) /\
  (forall (index e : Z) (p : loc) (P : PAM) (w : World),
      handlers w !! index = Some p ->
      objs w !! p = Some P ->
      stdin P = None ->
      readCallback L index e w = Crash w).
Proof.
  split.
  - intros index stream s p P w HM Hh Hp Hnil.
    unfold writeCallback. unfold bind at 1, get. rewrite Hh.
    pose proof (strnlen_le_max s (Z.to_nat (PAM_MAX_MSG_SIZE L))) as Hle.
    rewrite C_int_small by lia. rewrite decide_False by lia.
    unfold bind at 1, writeStream. unfold bind at 1.
    rewrite (load_ok _ _ _ Hp), Hnil. reflexivity.
  - intros index e p P w Hh Hp Hnil.
    unfold readCallback. unfold bind at 1, get. rewrite Hh.
    unfold bind at 1, readStream. unfold bind at 1.
    rewrite (load_ok _ _ _ Hp), Hnil. reflexivity.
Qed.


(** X11: an answer of the read callback is a block of at most
    [PAM_MAX_RESP_SIZE] bytes, the terminator included, whatever was
    read. *)
Theorem readCallback_answer_bounded (index e a : Z) (w w' : World) :
  0 < PAM_MAX_RESP_SIZE L < 2 ^ 63 ->
  readCallback L index e w = Ok a w' ->
  a <> 0 ->
  exists answer,
    cheap w' !! a = Some (CStr (answer ++ [NUL])) /\
    Z.of_nat (List.length (answer ++ [NUL])) <= PAM_MAX_RESP_SIZE L.
Proof.
  intros HM Hcall Ha. revert Hcall.
  unfold readCallback. unfold bind at 1, get.
  destruct (handlers w !! index) as [p|].
  2:{ cbv beta iota delta [bind logErrorf modify ret].
      intros H. inversion H. subst. contradiction. }
  unfold bind at 1.
  destruct (readStream p (if decide (e = 1) then true else false) w)
    as [[s [err|]] w1|w1]; cbn [fst snd].
  - cbv beta iota delta [bind logErrorf modify ret].
    intros H. inversion H. subst. contradiction.
  - rewrite go_int_small by lia.
    destruct (decide (Z.of_nat (List.length s) > PAM_MAX_RESP_SIZE L - 1)) as [Hgt|Hle].
    + unfold bind, slice_to. rewrite decide_True by lia.
      unfold C_CString, malloc, CString_bytes.
      cbv beta iota delta [bind get modify ret]. intros H. inversion H. subst.
      eexists. cbn [cheap set_next_addr set_cheap].
      split; [apply lookup_insert_eq|].
      rewrite length_app, length_firstn. cbn. lia.
    + unfold C_CString, malloc, CString_bytes.
      cbv beta iota delta [bind get modify ret]. intros H. inversion H. subst.
      eexists. cbn [cheap set_next_addr set_cheap].
      split; [apply lookup_insert_eq|].
      rewrite length_app. cbn. lia.
  - discriminate.
Qed.

(** X15: the echo flag of a prompt is not honoured: the read callback
    does the same whatever [e] is. *)
Theorem readCallback_ignores_echo (index e e' : Z) (w : World) :
  readCallback L index e w = readCallback L index e' w.
Proof.
  assert (Hecho : forall p b b', readStream p b = readStream p b')
    by reflexivity.
  unfold readCallback, bind, get.
  destruct (handlers w !! index) as [p|]; [|reflexivity].
  rewrite (Hecho p _ true). symmetry. rewrite (Hecho p _ true). reflexivity.
Qed.

End ConversationEdges.

(** ** More on the handle registry *)

Section RegistryOrder.

Import Pam.

(** X12: within the range of [int] the handle ids are handed out in
    order: the registration after [n] earlier ones gets the id [n + 1],
    whatever was unregistered in between, so no id is ever handed out
    twice. *)
Theorem register_ids_count
        (n : nat) (w0 w w' : World) (p : loc) (id : Z) :
  handlerCount w0 = 0 ->
  handlers w0 = ∅ ->
  registry_run n w0 w ->
  Z.of_nat n < max_go_int ->
  registerHandler p w = Ok id w' ->
  id = Z.of_nat n + 1 /\ handlerCount w' = Z.of_nat n + 1.
Proof.
  intros Hc Hh Hrun Hn Hreg.
  destruct (registry_run_inv _ _ _ Hc Hh Hrun) as [Hcount _]; [lia|].
  destruct (registerHandler_ok _ _ _ _ Hreg) as (Hid & Hc' & _).
  rewrite Hcount in Hid. rewrite go_int_small in Hid
    by (unfold max_go_int in Hn; lia).
  split; congruence.
Qed.

(** X13: unregistering the id [registerHandler] just returned gives back
    the table as it was before the registration, while the counter stays
    advanced; and unregistering an id that is not in the table changes
    nothing at all. *)
Theorem register_unregister_round_trip :
  (forall (n : nat) (w0 w w1 w2 : World) (p : loc) (id : Z),
      handlerCount w0 = 0 ->
      handlers w0 = ∅ ->
      registry_run n w0 w ->
      Z.of_nat n < max_go_int ->
      registerHandler p w = Ok id w1 ->
      unregisterHandler id w1 = Ok tt w2 ->
      handlers w2 = handlers w /\ handlerCount w2 = handlerCount w + 1) /\
  (forall (id : Z) (w : World),
      handlers w !! id = None ->
      unregisterHandler id w = Ok tt w).
Proof.
  split.
  - intros n w0 w w1 w2 p id Hc Hh Hrun Hn Hreg Hun.
    destruct (registry_run_inv _ _ _ Hc Hh Hrun) as [Hcount Hkeys]; [lia|].
    destruct (registerHandler_ok _ _ _ _ Hreg) as (Hid & Hc1 & Hh1).
    destruct (unregisterHandler_ok _ _ _ Hun) as (Hc2 & Hh2).
    rewrite Hcount in Hid. rewrite go_int_small in Hid
      by (unfold max_go_int in Hn; lia).
    split; [|lia].
    rewrite Hh2, Hh1, delete_insert_eq. apply delete_id.
    destruct (handlers w !! id) as [q|] eqn:Hq; [|reflexivity].
    specialize (Hkeys _ _ Hq). lia.
  - intros id w Hnone. unfold unregisterHandler, modify.
    rewrite delete_id by exact Hnone. destruct w. reflexivity.
Qed.

End RegistryOrder.

(** ** Component names *)

Section ComponentNames.

Import Teleport.

Lemma strings_Join_cons (x : string) (rest : list string) (sep : string) :
  rest <> [] ->
  strings_Join (x :: rest) sep =
  String.append x (String.append sep (strings_Join rest sep)).
Proof. destruct rest as [|y rest]; [congruence|reflexivity]. Qed.

Lemma append_assoc (a b c : string) :
  String.append (String.append a b) c = String.append a (String.append b c).
Proof.
  induction a as [|ch a IH]; [reflexivity|].
  change (String ch (String.append (String.append a b) c) =
          String ch (String.append a (String.append b c))).
  rewrite IH. reflexivity.
Qed.

(** X14: [Component] joins its arguments with colons, so naming a
    component and its subcomponents in one call or in two gives the same
    name: [Component (xs ++ ys)] is [Component xs], a colon, and
    [Component ys]. *)
Theorem Component_app (xs ys : list string) :
  xs <> [] ->
  ys <> [] ->
  Component (xs ++ ys) =
  String.append (Component xs) (String.append ":" (Component ys)).
Proof.
  unfold Component. intros Hxs Hys.
  induction xs as [|x xs IH]; [congruence|].
  destruct xs as [|x' xs].
  - cbn [app]. apply strings_Join_cons. exact Hys.
  - change ((x :: x' :: xs) ++ ys) with (x :: ((x' :: xs) ++ ys)).
    rewrite strings_Join_cons by discriminate.
    rewrite IH by discriminate.
    rewrite (strings_Join_cons x (x' :: xs)) by discriminate.
    rewrite !append_assoc. reflexivity.
Qed.

End ComponentNames.

(** ** The bridge at work *)

Section Samples.

Import Pam.

Lemma writeStream_translates_newlines_witness :
  exists out r,
    writeStream 1 1 ["a"%char; LF; "b"%char; LF; "c"%char]
                (sample_session sample_good) =
    Ok r (set_writers
            (<[1 := mkWriter
                      (received (mkWriter [list_ascii_of_string "Last login"] None)
                                ++ [out])
                      (broken (mkWriter [list_ascii_of_string "Last login"] None))]>
               (writers (sample_session sample_good)))
            (sample_session sample_good)) /\
    out = flat_map crlf ["a"%char; LF; "b"%char; LF; "c"%char] /\
    newlines out = newlines ["a"%char; LF; "b"%char; LF; "c"%char] /\
    List.length out =
    (List.length ["a"%char; LF; "b"%char; LF; "c"%char] +
     newlines ["a"%char; LF; "b"%char; LF; "c"%char])%nat /\
    bytes_Replace_all ["a"%char; LF; "b"%char; LF; "c"%char] [LF] [CR; LF] =
    ["a"%char; CR; LF; "b"%char; CR; LF; "c"%char].
Proof.
  apply (writeStream_translates_newlines 1 sample_PAM 1 1);
    vm_compute; reflexivity.
Defined.

Lemma writeCallback_truncates_witness :
  exists str,
    str = firstn (Z.to_nat (PAM_MAX_MSG_SIZE sample_good)) sample_long_message /\
    Z.of_nat (List.length str) = PAM_MAX_MSG_SIZE sample_good /\
    writeCallback sample_good 1 2 sample_long_message (sample_session sample_good) =
    Ok tt (set_writers
             (<[2 := mkWriter (received (mkWriter [] None) ++ [flat_map crlf str])
                              (broken (mkWriter [] None))]>
                (writers (sample_session sample_good)))
             (sample_session sample_good)).
Proof.
  apply (writeCallback_truncates sample_good 1 2 sample_long_message 1 sample_PAM 2).
  - change (0 <= 512 < 2 ^ 31). lia.
  - vm_compute; reflexivity.
  - vm_compute; reflexivity.
  - vm_compute; reflexivity.
  - vm_compute; reflexivity.
  - vm_compute; reflexivity.
Defined.

Lemma readCallback_truncates_witness :
  exists answer,
    readCallback sample_good 1 1 sample_waiting =
    Ok (next_addr sample_waiting)
       (set_next_addr (next_addr sample_waiting + 1)
          (set_cheap
             (<[next_addr sample_waiting := CStr (answer ++ [NUL])]>
                (cheap sample_waiting))
             (set_readers (<[0 := []]> (readers sample_waiting)) sample_waiting))) /\
    (Z.of_nat (List.length sample_long_line) > PAM_MAX_RESP_SIZE sample_good - 1 ->
     answer = firstn (Z.to_nat (PAM_MAX_RESP_SIZE sample_good - 1)) sample_long_line /\
     Z.of_nat (List.length answer) = PAM_MAX_RESP_SIZE sample_good - 1) /\
    (Z.of_nat (List.length sample_long_line) <= PAM_MAX_RESP_SIZE sample_good - 1 ->
     answer = sample_long_line).
Proof.
  apply (readCallback_truncates sample_good 1 1 1 sample_PAM 0
                                [Data sample_long_line] [] sample_long_line).
  - change (0 < 512 < 2 ^ 63). lia.
  - vm_compute; reflexivity.
  - vm_compute; reflexivity.
  - vm_compute; reflexivity.
  - vm_compute; reflexivity.
  - vm_compute; reflexivity.
Defined.

Lemma callbacks_tolerate_failures_witness :
  writeCallback sample_good 9 1 sample_long_message (sample_session sample_good) =
  Ok tt (set_errlog (errlog (sample_session sample_good) ++ [NoWriteHandler 9])
                    (sample_session sample_good)) /\
  readCallback sample_good 9 1 (sample_session sample_good) =
  Ok 0 (set_errlog (errlog (sample_session sample_good) ++ [NoReadHandler 9])
                   (sample_session sample_good)) /\
  readCallback sample_good 1 1 (sample_session sample_good) =
  Ok 0 (set_errlog
          (errlog (sample_session sample_good) ++ [ReadFailed (trace_Wrap io_EOF)])
          (set_readers (<[0 := []]> (readers (sample_session sample_good)))
                       (sample_session sample_good))).
Proof.
  destruct (callbacks_tolerate_failures sample_good) as (Hwrite & Hread & Hfail).
  split; [|split].
  - apply Hwrite. vm_compute; reflexivity.
  - apply Hread. vm_compute; reflexivity.
  - apply (Hfail 1 1 1%positive sample_PAM 0 [] [] [] io_EOF);
      vm_compute; reflexivity.
Defined.



End Samples.

(** ** The bridge at work, continued *)

Section MoreSamples.

Import Pam.

Lemma Open_always_registers_witness :
  handlerCount (final (Open sample_mute_start (Some sample_config) sample_world)) =
  go_int (handlerCount sample_world + 1) /\
  handlers (final (Open sample_mute_start (Some sample_config) sample_world)) =
  <[go_int (handlerCount sample_world + 1) := next_obj sample_world]>
    (handlers sample_world) /\
  cheap (final (Open sample_mute_start (Some sample_config) sample_world))
    !! next_addr sample_world =
  Some (CStr (ServiceName sample_config ++ [NUL])) /\
  cheap (final (Open sample_mute_start (Some sample_config) sample_world))
    !! (next_addr sample_world + 1) =
  Some (CStr (Username sample_config ++ [NUL])) /\
  cheap (final (Open sample_mute_start (Some sample_config) sample_world))
    !! (next_addr sample_world + 2) =
  Some (PamConv (C_int (go_int (handlerCount sample_world + 1)))) /\
  forall a, a < next_addr sample_world ->
            cheap (final (Open sample_mute_start (Some sample_config) sample_world))
              !! a = cheap sample_world !! a.
Proof. exact (Open_always_registers sample_mute_start sample_config sample_world). Defined.

Lemma Open_returns_registered_session_witness :
  (None : option error) = None /\
  (exists ix a s u h,
      calls (final (Open sample_good (Some sample_config) sample_world)) =
      calls sample_world ++
      [EvMakePamConv ix a;
       EvStart s u a (Some (PAM_SUCCESS sample_good, h));
       EvAcctMgmt h 0 (Some (PAM_SUCCESS sample_good));
       EvOpenSession h 0 (Some (PAM_SUCCESS sample_good))]) /\
  exists P,
    objs (final (Open sample_good (Some sample_config) sample_world)) !! 1%positive =
    Some P /\
    handlers (final (Open sample_good (Some sample_config) sample_world))
      !! handlerIndex P = Some 1%positive /\
    retval P = PAM_SUCCESS sample_good /\
    stdin P = Stdin sample_config /\ stdout P = Stdout sample_config /\
    stderr P = Stderr sample_config /\
    cheap (final (Open sample_good (Some sample_config) sample_world))
      !! service_name P = Some (CStr (ServiceName sample_config ++ [NUL])) /\
    cheap (final (Open sample_good (Some sample_config) sample_world))
      !! user P = Some (CStr (Username sample_config ++ [NUL])).
Proof.
  apply (Open_returns_registered_session sample_good sample_config sample_world
                                         1%positive None).
  vm_compute; reflexivity.
Defined.

Lemma Open_descriptor_resolves_witness :
  exists P index,
    objs (final (Open sample_good (Some sample_config) sample_world))
      !! next_obj sample_world = Some P /\
    cheap (final (Open sample_good (Some sample_config) sample_world)) !! conv P =
    Some (PamConv index) /\
    handlers (final (Open sample_good (Some sample_config) sample_world)) !! index =
    Some (next_obj sample_world).
Proof.
  apply (Open_descriptor_resolves sample_good sample_config sample_world).
  change (0 <= 0 < 2 ^ 31 - 1). lia.
Defined.


Lemma Close_call_order_witness :
  exists evs,
    calls (final (Close sample_failing_close 1 (sample_session sample_failing_close))) =
    calls (sample_session sample_failing_close) ++ evs /\
    (forall h st ret,
        In (EvEnd h st ret) evs ->
        h = pamh sample_PAM /\ st = PAM_SUCCESS sample_failing_close /\
        exists rest,
          evs = EvCloseSession (pamh sample_PAM) 0
                               (Some (PAM_SUCCESS sample_failing_close)) ::
                EvEnd h st ret :: rest) /\
    (forall a,
        In (EvFree a) evs ->
        exists before,
          evs = before ++
                [EvEnd (pamh sample_PAM) (PAM_SUCCESS sample_failing_close)
                       (Some (PAM_SUCCESS sample_failing_close));
                 EvFree (conv sample_PAM); EvFree (service_name sample_PAM);
                 EvFree (user sample_PAM)]).
Proof.
  apply (Close_call_order sample_failing_close 1%positive sample_PAM
                          (sample_session sample_failing_close)).
  vm_compute; reflexivity.
Defined.

Lemma Close_again_same_pointers_witness :
  exists ret rest,
    calls (final (Close sample_good 1
                        (final (Close sample_good 1 (sample_session sample_good))))) =
    calls (final (Close sample_good 1 (sample_session sample_good))) ++
    EvCloseSession (pamh sample_PAM) 0 ret :: rest /\
    forall a, In (EvFree a) rest ->
              a = conv sample_PAM \/ a = service_name sample_PAM \/
              a = user sample_PAM.
Proof.
  apply (Close_again_same_pointers sample_good 1%positive sample_PAM
                                   (sample_session sample_good) _ None).
  - vm_compute; reflexivity.
  - vm_compute; reflexivity.
Defined.

Lemma native_call_footprint_witness :
  handlerCount (final (run_native sample_good
                         (Prompt 1 1 (fun _ => Return 0)) sample_two_lines)) =
  handlerCount sample_two_lines /\
  handlers (final (run_native sample_good
                     (Prompt 1 1 (fun _ => Return 0)) sample_two_lines)) =
  handlers sample_two_lines /\
  objs (final (run_native sample_good
                 (Prompt 1 1 (fun _ => Return 0)) sample_two_lines)) =
  objs sample_two_lines /\
  calls (final (run_native sample_good
                  (Prompt 1 1 (fun _ => Return 0)) sample_two_lines)) =
  calls sample_two_lines /\
  forall a, a < next_addr sample_two_lines ->
            cheap (final (run_native sample_good
                            (Prompt 1 1 (fun _ => Return 0)) sample_two_lines))
              !! a = cheap sample_two_lines !! a.
Proof.
  exact (native_call_footprint sample_good (Prompt 1 1 (fun _ => Return 0))
                               sample_two_lines).
Defined.

Lemma writeCallback_writes_capped_text_witness :
  writeCallback sample_good 1 1
                (list_ascii_of_string "motd" ++ [NUL] ++ list_ascii_of_string "junk")
                (sample_session sample_good) =
  Ok tt (set_writers
           (<[1 := mkWriter
                     (received (mkWriter [list_ascii_of_string "Last login"] None) ++
                      [flat_map crlf
                         (firstn
                            (Nat.min
                               (strlen (list_ascii_of_string "motd" ++ [NUL] ++
                                        list_ascii_of_string "junk"))
                               (Z.to_nat (PAM_MAX_MSG_SIZE sample_good)))
                            (list_ascii_of_string "motd" ++ [NUL] ++
                             list_ascii_of_string "junk"))])
                     (broken (mkWriter [list_ascii_of_string "Last login"] None))]>
              (writers (sample_session sample_good)))
           (sample_session sample_good)).
Proof.
  apply (writeCallback_writes_capped_text sample_good 1 1 _ 1%positive sample_PAM 1).
  - change (0 <= 512 < 2 ^ 31). lia.
  - vm_compute; reflexivity.
  - vm_compute; reflexivity.
  - vm_compute; reflexivity.
  - vm_compute; reflexivity.
Defined.

Lemma callbacks_panic_on_nil_stream_witness :
  writeCallback sample_good 1 1 (list_ascii_of_string "motd") sample_streamless =
  Crash sample_streamless /\
  readCallback sample_good 1 1 sample_streamless = Crash sample_streamless.
Proof.
  destruct (callbacks_panic_on_nil_stream sample_good) as [Hwrite Hread].
  split.
  - apply (Hwrite 1 1 _ 1%positive (mkPAM 0 0 0 None None None 0 0 1)).
    + change (0 <= 512 < 2 ^ 31). lia.
    + vm_compute; reflexivity.
    + vm_compute; reflexivity.
    + vm_compute; reflexivity.
  - apply (Hread 1 1 1%positive (mkPAM 0 0 0 None None None 0 0 1));
      vm_compute; reflexivity.
Defined.


Lemma readCallback_answer_bounded_witness :
  exists answer,
    cheap (final (readCallback sample_good 1 1 sample_waiting))
      !! next_addr sample_waiting = Some (CStr (answer ++ [NUL])) /\
    Z.of_nat (List.length (answer ++ [NUL])) <= PAM_MAX_RESP_SIZE sample_good.
Proof.
  apply (readCallback_answer_bounded sample_good 1 1 (next_addr sample_waiting)
                                     sample_waiting).
  - change (0 < 512 < 2 ^ 63). lia.
  - vm_compute; reflexivity.
  - vm_compute. intros H; discriminate H.
Defined.

Lemma register_ids_count_witness :
  (1 : Z) = Z.of_nat 0 + 1 /\
  handlerCount (final (registerHandler 1 sample_unregistered)) = Z.of_nat 0 + 1.
Proof.
  apply (register_ids_count O sample_unregistered sample_unregistered
                            (final (registerHandler 1 sample_unregistered))
                            1%positive 1).
  - reflexivity.
  - reflexivity.
  - apply run_start.
  - vm_compute; reflexivity.
  - vm_compute; reflexivity.
Defined.

Lemma register_unregister_round_trip_witness :
  (handlers (final (unregisterHandler 1 (final (registerHandler 1 sample_unregistered)))) =
   handlers sample_unregistered /\
   handlerCount (final (unregisterHandler 1
                          (final (registerHandler 1 sample_unregistered)))) =
   handlerCount sample_unregistered + 1) /\
  unregisterHandler 7 sample_unregistered = Ok tt sample_unregistered.
Proof.
  destruct register_unregister_round_trip as [Hround Hnoop].
  split.
  - apply (Hround O sample_unregistered sample_unregistered
                  (final (registerHandler 1 sample_unregistered)) _ 1%positive 1).
    + reflexivity.
    + reflexivity.
    + apply run_start.
    + vm_compute; reflexivity.
    + vm_compute; reflexivity.
    + reflexivity.
  - apply Hnoop. vm_compute; reflexivity.
Defined.

Lemma Component_app_witness :
  Teleport.Component ([Teleport.ComponentProxy] ++ ["server"%string]) =
  String.append (Teleport.Component [Teleport.ComponentProxy])
                (String.append ":" (Teleport.Component ["server"%string])).
Proof.
  apply (Component_app [Teleport.ComponentProxy] ["server"%string]);
    intros H; discriminate H.
Defined.

End MoreSamples.
